(** * live_data_server.py: the market-data feed, embedded and verified

    The handler class [LiveDataServer] of [src/live_data_server.py] is
    translated definition by definition:

    - Python values the handler touches: exceptions (only [str(e)] is
      observed), floats (taken as the rationals they denote, plus the two
      infinities and NaN), JSON-serialisable objects; a [str] is the
      string of its UTF-8 bytes, so that a text of ASCII characters is a
      string of bytes below 128;
    - the pandas frame returned by [ticker.history], with its column labels
      and its rows;
    - the two class attributes [data_cache] and [cache_expiry], as finite
      maps keyed by the formatted cache key;
    - the handlers, in a small state/exception/output monad: a handler reads
      and writes the two maps, may raise, and emits events (an upstream
      call, a JSON response, an HTTP error).

    Everything outside the process is an input of a request: the clock
    readings of [time.time()], which are finite binary64 numbers, and the
    answer of the upstream provider. The sum [current_time + 300] is the
    binary64 sum, rounded to the nearest.
    The [print] calls are kept only for what they evaluate: the dates they
    format with [datetime.fromtimestamp], which may raise; writing to the
    standard output, to the log and to the socket is taken to succeed. The
    status line of [send_error] is encoded in latin-1, which raises for a
    message with a character beyond U+00FF. *)

From Stdlib Require Import ZArith QArith Qround Qabs Qpower Lia Lqa List Sorted Permutation Ascii.
From stdpp Require Import base option list gmap strings pretty.
Local Open Scope Z_scope.
Set Warnings "-register-all".


(** ** Python values *)

(** An exception instance: its class name and [str(e)]. Only instances of
    [Exception] are modelled (a [KeyboardInterrupt] is not caught by
    [except Exception] and is outside the model). *)
Inductive PyException : Type :=
| Raise (cls : string) (msg : string).

Definition str (e : PyException) : string :=
  match e with Raise _ msg => msg end.

(** [KeyError(k)] prints as the [repr] of the key. *)
Definition KeyError (key : string) : PyException :=
  Raise "KeyError" ("'" +:+ key +:+ "'").

(** A Python float: a finite binary64 value, taken as the rational number
    it denotes, or one of the special values. *)
Inductive pyfloat : Type :=
| Finite (q : Q)
| Inf (negative : bool)
| NaN.

(** Result of a computation that may raise. *)
Abbreviation result A := (PyException + A)%type.

(** [int(x)] on a float: truncation toward zero; the special values raise. *)
Definition Qtruncate (q : Q) : Z := Z.quot (Qnum q) (Zpos (Qden q)).

Definition int (x : pyfloat) : result Z :=
  match x with
  | Finite q => inr (Qtruncate q)
  | Inf _ => inl (Raise "OverflowError" "cannot convert float infinity to integer")
  | NaN => inl (Raise "ValueError" "cannot convert float NaN to integer")
  end.

(** Nearest integer, ties to the even one. *)
Definition round_half_even (q : Q) : Z :=
  let f := Qfloor q in
  match (q - inject_Z f ?= 1 # 2)%Q with
  | Lt => f
  | Gt => f + 1
  | Eq => if Z.even f then f else f + 1
  end.

(** [round(x, 2)] on a float. CPython rounds the exact value of [x] to two
    decimals, ties to even, and returns the binary64 nearest to that
    decimal; the model keeps the decimal itself. Special values are
    returned unchanged. *)
Definition round2 (x : pyfloat) : pyfloat :=
  match x with
  | Finite q => Finite (inject_Z (round_half_even (q * 100)) / 100)
  | _ => x
  end.

(** [pd.notna(x)] on a scalar float. *)
Definition notna (x : pyfloat) : bool :=
  match x with NaN => false | _ => true end.

(** [x < y] on floats denoting rationals. *)
Definition Qltb (x y : Q) : bool := negb (Qle_bool y x).

(** ** Binary64 arithmetic *)

(** The exponent of a nonzero rational: the [e] with [2^e <= |q| < 2^(e+1)]. *)
Definition exponent (q : Q) : Z :=
  let k := Z.log2 (Z.abs (Qnum q)) - Z.log2 (Zpos (Qden q)) in
  if Qle_bool (2 ^ k) (Qabs q) then k else k - 1.

(** The gap between the numbers of 53 significant bits around [q]. *)
Definition ulp (q : Q) : Q := (2 ^ (exponent q - 52))%Q.

(** The number of 53 significant bits nearest to [q], ties to even. *)
Definition fl (q : Q) : Q :=
  if Qeq_bool q 0 then 0%Q
  else Qred (inject_Z (round_half_even (q / ulp q)) * ulp q).

(** The largest finite binary64, and the inverse of the smallest positive
    one. *)
Definition max_finite : Q := inject_Z ((2 ^ 53 - 1) * 2 ^ 971).
Definition subnormal_scale : Q := inject_Z (2 ^ 1074).

(** [q] is the value of a finite binary64: it has at most 53 significant
    bits, does not exceed the largest finite one, and is a multiple of the
    smallest positive one. *)
Definition is_binary64 (q : Q) : bool :=
  Qeq_bool (fl q) q
  && Qle_bool (Qabs q) max_finite
  && Qeq_bool (inject_Z (Qfloor (q * subnormal_scale))) (q * subnormal_scale).

(** A finite Python float, as [time.time()] returns. *)
Record binary64 : Type := {
  value :> Q;
  value_ok : is_binary64 value = true
}.

(** [x + y] on floats: the exact sum rounded to the nearest number of 53
    significant bits. The handler adds 300 to a finite clock reading: the
    exact sum is then zero or in the normal range and far from overflow,
    and there this rounding is the binary64 sum. *)
Definition float_add (x y : Q) : Q := fl (x + y).

(** ** Texts *)

(** The upper case of an ASCII letter; any other byte is left as it is. *)
Definition upper_char (c : ascii) : ascii :=
  let n := Ascii.N_of_ascii c in
  if ((97 <=? n) && (n <=? 122))%N then Ascii.ascii_of_N (n - 32) else c.

(** [s.upper()] for a text of ASCII characters. *)
Fixpoint ascii_upper (s : string) : string :=
  match s with
  | EmptyString => EmptyString
  | String c s' => String (upper_char c) (ascii_upper s')
  end.

(** Whether a text has ASCII characters only. *)
Fixpoint is_ascii (s : string) : bool :=
  match s with
  | EmptyString => true
  | String c s' => (Ascii.N_of_ascii c <? 128)%N && is_ascii s'
  end.

(** Whether a text has no character beyond U+00FF, that is, whether
    [s.encode('latin-1')] succeeds: in UTF-8 such a character is one byte
    below 128, or the byte C2 or C3 followed by one continuation byte. *)
Fixpoint latin1 (s : string) : bool :=
  match s with
  | EmptyString => true
  | String c s' =>
      let n := Ascii.N_of_ascii c in
      if (n <? 128)%N then latin1 s'
      else if ((n =? 194) || (n =? 195))%N then
        match s' with
        | String d s'' =>
            let m := Ascii.N_of_ascii d in
            (128 <=? m)%N && (m <=? 191)%N && latin1 s''
        | EmptyString => false
        end
      else false
  end.

(** A text with no character beyond U+00FF. For a text that is written
    out, this is found by computation. *)
Class Latin1 (s : string) : Prop := is_latin1 : latin1 s = true.

#[global] Hint Extern 0 (Latin1 _) => exact eq_refl : typeclass_instances.

(** [needle in hay] on strings. *)
Fixpoint contains (needle hay : string) : bool :=
  String.prefix needle hay ||
  match hay with
  | EmptyString => false
  | String _ hay' => contains needle hay'
  end.

(** [l[:limit]]: a negative bound counts from the end. *)
Definition slice_to {A} (l : list A) (limit : Z) : list A :=
  if 0 <=? limit then take (Z.to_nat limit) l
  else take (length l - Z.to_nat (- limit))%nat l.

(** What [json.dumps] is given. A dict keeps its insertion order. *)
Inductive json : Type :=
| JInt (z : Z)
| JFloat (x : pyfloat)
| JStr (s : string)
| JBool (b : bool)
| JList (l : list json)
| JDict (items : list (string * json)).

(** [d.get(k)] on a JSON object. *)
Fixpoint jget (k : string) (items : list (string * json)) : option json :=
  match items with
  | [] => None
  | (k', v) :: rest => if String.eqb k k' then Some v else jget k rest
  end.

(** The parts of the interpreter that the handlers call and that depend on
    the platform or on the Unicode tables: [int] on a query-string value,
    the range of POSIX timestamps that [datetime.fromtimestamp] accepts,
    [str.upper] on a text that has characters beyond ASCII, and the
    [UnicodeEncodeError] raised when a status line is not latin-1. *)
Class PyRuntime : Type := {
  py_int : string → result Z;
  ts_min : Z;
  ts_max : Z;
  fromtimestamp_error : Z → PyException;
  unicode_upper : string → string;
  encode_error : string → PyException
}.

(** [s.upper()]: on ASCII text the letters a to z become A to Z; a text
    with other characters goes through the Unicode case mapping. *)
Definition upper {runtime : PyRuntime} (s : string) : string :=
  if is_ascii s then ascii_upper s else unicode_upper s.

(** ** The upstream provider *)

(** One row of [hist.iterrows()]: the value of [index.timestamp()] (the
    frames of the provider are indexed by timestamps) and the cells of the
    row, by column label; a cell holds a float, or an integer taken as one. *)
Record Row : Type := {
  index_timestamp : Q;
  cells : string → pyfloat
}.

(** The frame returned by [ticker.history]. *)
Record DataFrame : Type := {
  columns : list string;
  rows : list Row
}.

(** [hist.empty]: one of the two axes has length zero. *)
Definition empty (hist : DataFrame) : bool :=
  match columns hist, rows hist with
  | _ :: _, _ :: _ => false
  | _, _ => true
  end.

(** [row[label]]. *)
Definition getitem (hist : DataFrame) (row : Row) (label : string) : result pyfloat :=
  if bool_decide (label ∈ columns hist) then inr (cells row label)
  else inl (KeyError label).

(** ** The server *)

(** A bar of the chart, the dict built for each row in range. *)
Record bar : Type := {
  time : Z;
  open : pyfloat;
  high : pyfloat;
  low : pyfloat;
  close : pyfloat;
  volume : Z
}.

(** What a request takes from outside the process: the two readings of
    [time.time()] in [handle_history] (the default of [to], then
    [current_time]) and the provider's answer to
    [yf.Ticker(symbol).history(period, interval)]. *)
Record Env : Type := {
  time_default : binary64;
  time_now : binary64;
  ticker_history : string → string → string → result DataFrame
}.

(** The class attributes of [LiveDataServer], shared by all requests. *)
Record Server : Type := {
  data_cache : gmap string json;
  cache_expiry : gmap string Q
}.

Definition initial : Server := {| data_cache := ∅; cache_expiry := ∅ |}.

(** What a handler does that is visible outside. *)
Inductive event : Type :=
| UpstreamCall (symbol period interval : string)
| Send (status : Z) (body : json)
| SendError (status : Z) (message : string).

(** A handler: state passing over [Server], with exceptions and a trace of
    events. The state reached when an exception is raised is kept. *)
Definition M (A : Type) : Type := Server → result A * Server * list event.

Definition ret {A} (x : A) : M A := λ st, (inr x, st, []).

Definition raise {A} (e : PyException) : M A := λ st, (inl e, st, []).

Definition bind {A B} (m : M A) (k : A → M B) : M B := λ st,
  match m st with
  | (inl e, st', tr) => (inl e, st', tr)
  | (inr x, st', tr) =>
      match k x st' with (r, st'', tr') => (r, st'', tr ++ tr') end
  end.

Definition lift {A} (r : result A) : M A := λ st, (r, st, []).

Definition try_except {A} (m : M A) (handler : PyException → M A) : M A := λ st,
  match m st with
  | (inl e, st', tr) =>
      match handler e st' with (r, st'', tr') => (r, st'', tr ++ tr') end
  | (inr x, st', tr) => (inr x, st', tr)
  end.

Definition get_state : M Server := λ st, (inr st, st, []).
Definition put_state (st' : Server) : M unit := λ _, (inr (), st', []).
Definition emit (ev : event) : M unit := λ st, (inr (), st, [ev]).

Notation "x <- m ;; k" := (bind m (λ x, k))
  (at level 100, m at next level, right associativity, only parsing).
Notation "m ;; k" := (bind m (λ _, k))
  (at level 100, right associativity, only parsing).

(** The same sequencing for computations without state. *)
Definition rbind {A B} (r : result A) (k : A → result B) : result B :=
  match r with inl e => inl e | inr x => k x end.

Definition result_of (r : result unit * Server * list event) : result unit := r.1.1.
Definition state_of (r : result unit * Server * list event) : Server := r.1.2.
Definition trace_of (r : result unit * Server * list event) : list event := r.2.

(** The JSON bodies sent with status 200, in order. *)
Definition sent (tr : list event) : list json :=
  omap (λ ev, match ev with Send 200 body => Some body | _ => None end) tr.

(** The upstream calls made, in order. *)
Definition upstream_calls (tr : list event) : list (string * string * string) :=
  omap (λ ev, match ev with
              | UpstreamCall s p i => Some (s, p, i)
              | _ => None
              end) tr.

Notation "x <~ r ;; k" := (rbind r (λ x, k))
  (at level 100, r at next level, right associativity, only parsing).

(** ** The symbol catalog *)

Record SymbolDescriptor : Type := {
  symbol : string;
  full_name : string;
  description : string;
  exchange : string;
  type : string
}.

(** The literal list of [handle_search]. *)
Definition all_symbols : list SymbolDescriptor := [
  {| symbol := "AAPL"; full_name := "Apple Inc."; description := "Apple Inc.";
     exchange := "NASDAQ"; type := "stock" |};
  {| symbol := "MSFT"; full_name := "Microsoft Corporation";
     description := "Microsoft Corporation"; exchange := "NASDAQ"; type := "stock" |};
  {| symbol := "GOOGL"; full_name := "Alphabet Inc."; description := "Alphabet Inc.";
     exchange := "NASDAQ"; type := "stock" |};
  {| symbol := "AMZN"; full_name := "Amazon.com Inc."; description := "Amazon.com Inc.";
     exchange := "NASDAQ"; type := "stock" |};
  {| symbol := "TSLA"; full_name := "Tesla Inc."; description := "Tesla Inc.";
     exchange := "NASDAQ"; type := "stock" |};
  {| symbol := "NVDA"; full_name := "NVIDIA Corporation";
     description := "NVIDIA Corporation"; exchange := "NASDAQ"; type := "stock" |};
  {| symbol := "META"; full_name := "Meta Platforms Inc.";
     description := "Meta Platforms Inc."; exchange := "NASDAQ"; type := "stock" |}
].

(** The literal list of [handle_symbol_info]. *)
Definition popular_symbols : list SymbolDescriptor := [
  {| symbol := "AAPL"; full_name := "Apple Inc."; description := "Apple Inc.";
     exchange := "NASDAQ"; type := "stock" |};
  {| symbol := "MSFT"; full_name := "Microsoft Corporation";
     description := "Microsoft Corporation"; exchange := "NASDAQ"; type := "stock" |};
  {| symbol := "GOOGL"; full_name := "Alphabet Inc."; description := "Alphabet Inc.";
     exchange := "NASDAQ"; type := "stock" |};
  {| symbol := "AMZN"; full_name := "Amazon.com Inc."; description := "Amazon.com Inc.";
     exchange := "NASDAQ"; type := "stock" |};
  {| symbol := "TSLA"; full_name := "Tesla Inc."; description := "Tesla Inc.";
     exchange := "NASDAQ"; type := "stock" |};
  {| symbol := "NVDA"; full_name := "NVIDIA Corporation";
     description := "NVIDIA Corporation"; exchange := "NASDAQ"; type := "stock" |};
  {| symbol := "META"; full_name := "Meta Platforms Inc.";
     description := "Meta Platforms Inc."; exchange := "NASDAQ"; type := "stock" |}
].

(** The test of the comprehension in [handle_search]; [query] is already in
    upper case. *)
Definition matches {runtime : PyRuntime} (query : string) (s : SymbolDescriptor) : bool :=
  contains query (symbol s) || contains query (upper (full_name s)).

(** [filtered]: an empty query is falsy and keeps the whole catalog. *)
Definition filtered {runtime : PyRuntime} (query : string) : list SymbolDescriptor :=
  match query with
  | EmptyString => all_symbols
  | _ => List.filter (matches query) all_symbols
  end.

(** The dict appended to [results] for one symbol. *)
Definition search_entry (sym : SymbolDescriptor) : json :=
  JDict [("symbol", JStr (symbol sym)); ("full_name", JStr (full_name sym));
         ("description", JStr (description sym)); ("exchange", JStr (exchange sym));
         ("ticker", JStr (symbol sym)); ("type", JStr (type sym))].

(** The dict appended to [symbols] by [handle_symbol_info] for one symbol. *)
Definition info_entry (sym : SymbolDescriptor) : json :=
  JDict [("symbol", JStr (symbol sym)); ("full_name", JStr (full_name sym));
         ("description", JStr (description sym)); ("exchange", JStr (exchange sym));
         ("currency", JStr "USD"); ("type", JStr (type sym))].

(** The descriptors selected by [handle_search], for the [query] parameter
    as received and the parsed [limit]. *)
Definition search_symbols {runtime : PyRuntime} (query : string) (limit : Z)
    : list SymbolDescriptor :=
  slice_to (filtered (upper query)) limit.

(** [results] of [handle_search]. *)
Definition search {runtime : PyRuntime} (query : string) (limit : Z) : list json :=
  map search_entry (search_symbols query limit).

(** ** The history handler, piece by piece *)

(** The period and interval passed to [ticker.history]. *)
Definition select_window (resolution : string) : string * string :=
  if String.eqb resolution "1D" then ("2y", "1d")
  else if String.eqb resolution "60" || String.eqb resolution "240" then ("60d", "1h")
  else ("7d", "5m").

(** The f-string [{symbol}_{resolution}_{from_ts}_{to_ts}]. *)
Definition cache_key (symbol resolution : string) (from_ts to_ts : Z) : string :=
  symbol +:+ "_" +:+ resolution +:+ "_" +:+ pretty from_ts +:+ "_" +:+ pretty to_ts.

(** [cache_expiry.get(key, 0)]: the instant up to which the cached answer
    of a key is served. *)
Definition expiry (st : Server) (key : string) : Q :=
  default 0%Q (cache_expiry st !! key).

(** The test guarding the cached answer:
    [cache_key in data_cache and current_time < cache_expiry.get(cache_key, 0)],
    and the value [data_cache[cache_key]] it gives access to. *)
Definition cache_lookup (st : Server) (key : string) (current_time : Q) : option json :=
  match data_cache st !! key with
  | Some cached =>
      if Qltb current_time (expiry st key) then Some cached
      else None
  | None => None
  end.

(** The two assignments that cache a response for 5 minutes; the expiry is
    the float [current_time + 300]. *)
Definition cache_store (st : Server) (key : string) (response : json) (current_time : Q) : Server :=
  {| data_cache := <[key := response]> (data_cache st);
     cache_expiry := <[key := float_add current_time 300]> (cache_expiry st) |}.

(** The volume entry of the dict:
    [int(row['Volume']) if 'Volume' in row and pd.notna(row['Volume']) else 0]. *)
Definition volume_of (hist : DataFrame) (row : Row) : result Z :=
  if bool_decide ("Volume" ∈ columns hist) then
    x <~ getitem hist row "Volume" ;;
    if notna x then int x else inr 0
  else inr 0.

(** The dict appended to [bars] for a row in range. The cells are read in
    the order of the dict display; the first failing read raises. *)
Definition make_bar (hist : DataFrame) (timestamp : Z) (row : Row) : result bar :=
  o <~ getitem hist row "Open" ;;
  h <~ getitem hist row "High" ;;
  l <~ getitem hist row "Low" ;;
  c <~ getitem hist row "Close" ;;
  v <~ volume_of hist row ;;
  inr {| time := timestamp * 1000;
         open := round2 o; high := round2 h; low := round2 l; close := round2 c;
         volume := v |}.

(** [int(index.timestamp())]: the row's time in whole seconds. *)
Definition second_timestamp (row : Row) : Z := Qtruncate (index_timestamp row).

(** The filter [from_ts <= timestamp <= to_ts], on seconds. *)
Definition in_range (from_ts to_ts timestamp : Z) : bool :=
  (from_ts <=? timestamp) && (timestamp <=? to_ts).

(** The loop over [hist.iterrows()], with [bars] as accumulator. *)
Fixpoint convert_rows (hist : DataFrame) (from_ts to_ts : Z)
    (rs : list Row) (bars : list bar) : result (list bar) :=
  match rs with
  | [] => inr bars
  | row :: rest =>
      let timestamp := second_timestamp row in
      if in_range from_ts to_ts timestamp then
        b <~ make_bar hist timestamp row ;;
        convert_rows hist from_ts to_ts rest (bars ++ [b])
      else convert_rows hist from_ts to_ts rest bars
  end.

(** The rows that pass the filter of the loop. *)
Definition kept (from_ts to_ts : Z) (rs : list Row) : list Row :=
  List.filter (λ row, in_range from_ts to_ts (second_timestamp row)) rs.

(** [bars.sort(key=lambda x: x['time'])]. Python's sort is stable, and a
    stable sort has one possible result: insertion keeps an earlier bar
    before the later bars of the same time. *)
Fixpoint insert_bar (b : bar) (l : list bar) : list bar :=
  match l with
  | [] => [b]
  | x :: l' => if time b <=? time x then b :: x :: l' else x :: insert_bar b l'
  end.

Fixpoint sort_bars (l : list bar) : list bar :=
  match l with
  | [] => []
  | b :: l' => insert_bar b (sort_bars l')
  end.

(** The order the sort establishes. *)
Definition time_le (a b : bar) : Prop := time a ≤ time b.

(** The success envelope. *)
Definition ok_response (bars : list bar) : json :=
  JDict [("s", JStr "ok");
         ("t", JList (map (λ b, JInt (time b)) bars));
         ("o", JList (map (λ b, JFloat (open b)) bars));
         ("h", JList (map (λ b, JFloat (high b)) bars));
         ("l", JList (map (λ b, JFloat (low b)) bars));
         ("c", JList (map (λ b, JFloat (close b)) bars));
         ("v", JList (map (λ b, JInt (volume b)) bars))].

Definition no_data_response : json := JDict [("s", JStr "no_data")].

Definition error_response (errmsg : string) : json :=
  JDict [("s", JStr "error"); ("errmsg", JStr errmsg)].

Section Handlers.
Context {runtime : PyRuntime}.

(** [datetime.fromtimestamp(ts)]; the handler only prints the date, so
    what matters is whether the call raises. *)
Definition fromtimestamp (ts : Z) : result unit :=
  if in_range ts_min ts_max ts then inr ()
  else inl (fromtimestamp_error ts).

Definition send_json_response (data : json) : M unit := emit (Send 200 data).

(** The status line that [send_error] builds; the handler class keeps the
    protocol version of [BaseHTTPRequestHandler]. *)
Definition status_line (code : Z) (message : string) : string :=
  "HTTP/1.0 " +:+ pretty code +:+ " " +:+ message
  +:+ String "013" (String "010" EmptyString).

(** [send_error(code, message)]: the status line is encoded in latin-1
    before anything is written to the client; a message with a character
    beyond U+00FF makes the encoding raise, and nothing is sent. *)
Definition send_error (code : Z) (message : string) : M unit :=
  if latin1 message then emit (SendError code message)
  else raise (encode_error (status_line code message)).

(** [params.get(name, [default])[0]] followed by [int]: [params] holds,
    for each name present in the query string, the first of its values
    ([parse_qs] never yields an empty list). *)
Definition int_param (params : gmap string string) (name : string) (default : Z) : result Z :=
  match params !! name with
  | Some s => py_int s
  | None => inr default
  end.

(** The first four assignments of [handle_history]. *)
Definition history_params (params : gmap string string) (E : Env)
    : result (string * string * Z * Z) :=
  let symbol := default "AAPL" (params !! "symbol") in
  let resolution := default "1D" (params !! "resolution") in
  from_ts <~ int_param params "from" 0 ;;
  to_ts <~ int_param params "to" (Qtruncate (time_default E)) ;;
  inr (symbol, resolution, from_ts, to_ts).

(** The date printed after the fetch:
    [datetime.fromtimestamp(bars[-1]['time']/1000) if bars else 'No data']. *)
Definition latest_date (bars : list bar) : result unit :=
  match last bars with
  | Some b => fromtimestamp (time b / 1000)
  | None => inr ()
  end.

(** The body of the [try] block, after the parameters are read. *)
Definition fetch_history (symbol resolution : string) (from_ts to_ts : Z) (E : Env) : M unit :=
  (* the two dates of the first [print] *)
  lift (fromtimestamp from_ts) ;;
  lift (fromtimestamp to_ts) ;;
  (* check cache first *)
  let key := cache_key symbol resolution from_ts to_ts in
  let current_time := time_now E in
  st <- get_state ;;
  match cache_lookup st key current_time with
  | Some cached => send_json_response cached
  | None =>
      (* [start_date] and [end_date] *)
      lift (fromtimestamp from_ts) ;;
      lift (fromtimestamp to_ts) ;;
      (* determine period based on resolution, and fetch *)
      let '(period, interval) := select_window resolution in
      emit (UpstreamCall symbol period interval) ;;
      hist <- lift (ticker_history E symbol period interval) ;;
      if empty hist then send_json_response no_data_response
      else
        (* convert, filter by the requested range, sort by time *)
        bars <- lift (convert_rows hist from_ts to_ts (rows hist) []) ;;
        let bars := sort_bars bars in
        let response := ok_response bars in
        (* cache the response for 5 minutes *)
        put_state (cache_store st key response current_time) ;;
        lift (latest_date bars) ;;
        send_json_response response
  end.

(** [handle_history]: whatever is raised in the [try] block is answered
    with an error body. *)
Definition handle_history (params : gmap string string) (E : Env) : M unit :=
  try_except
    (args <- lift (history_params params E) ;;
     let '(symbol, resolution, from_ts, to_ts) := args in
     fetch_history symbol resolution from_ts to_ts E)
    (λ e, send_json_response (error_response (str e))).

(** ** The other handlers *)

Definition supported_resolutions : json :=
  JList (map JStr ["1"; "5"; "15"; "30"; "60"; "240"; "1D"]).

Definition handle_config : M unit :=
  send_json_response
    (JDict [("supported_resolutions", supported_resolutions);
            ("supports_group_request", JBool false);
            ("supports_marks", JBool false);
            ("supports_search", JBool true);
            ("supports_timescale_marks", JBool false)]).

(** [group] is read from the parameters and not used. *)
Definition handle_symbol_info (params : gmap string string) : M unit :=
  send_json_response (JDict [("symbols", JList (map info_entry popular_symbols))]).

Definition handle_symbols (params : gmap string string) : M unit :=
  let symbol := default "AAPL" (params !! "symbol") in
  send_json_response
    (JDict [("name", JStr symbol);
            ("exchange-traded", JStr "NASDAQ");
            ("exchange-listed", JStr "NASDAQ");
            ("timezone", JStr "America/New_York");
            ("minmov", JInt 1);
            ("minmov2", JInt 0);
            ("pointvalue", JInt 1);
            ("session", JStr "0930-1600");
            ("has_intraday", JBool true);
            ("has_no_volume", JBool false);
            ("description", JStr (symbol +:+ " - Live 2025 Data"));
            ("type", JStr "stock");
            ("supported_resolutions", supported_resolutions);
            ("pricescale", JInt 100);
            ("ticker", JStr symbol)]).

Definition handle_search (params : gmap string string) : M unit :=
  let query := default "" (params !! "query") in
  limit <- lift (int_param params "limit" 10) ;;
  send_json_response (JList (search query limit)).

(** [int(time.time())]; the one reading of the clock is [time_now]. *)
Definition handle_time (E : Env) : M unit :=
  send_json_response (JInt (Qtruncate (time_now E))).

(** A GET request, after [urlparse] and [parse_qs]. The path is a part of
    the request line, which the server decodes as latin-1: it has no
    character beyond U+00FF. The values of the query string are
    percent-decoded and can hold any character. *)
Record Request : Type := {
  path : string;
  query_params : gmap string string;
  path_latin1 : Latin1 path
}.

Definition do_GET (req : Request) (E : Env) : M unit :=
  try_except
    (if String.eqb (path req) "/config" then handle_config
     else if String.eqb (path req) "/symbol_info" then handle_symbol_info (query_params req)
     else if String.eqb (path req) "/symbols" then handle_symbols (query_params req)
     else if String.eqb (path req) "/search" then handle_search (query_params req)
     else if String.eqb (path req) "/history" then handle_history (query_params req) E
     else if String.eqb (path req) "/time" then handle_time E
     else send_error 404 ("Unknown endpoint: " +:+ path req))
    (λ e, send_error 500 (str e)).

(** The ways a history request can go, each with the answer, the state and
    the events it leaves: refused before the cache is consulted, served
    from the cache, or sent upstream, where the provider may raise, return
    an empty frame, return a frame that cannot be converted, or return a
    frame that is converted, cached and served. *)
Inductive outcome (params : gmap string string) (E : Env) (st : Server)
    : result unit * Server * list event → Prop :=
| outcome_bad_params e :
    history_params params E = inl e →
    outcome params E st (inr (), st, [Send 200 (error_response (str e))])
| outcome_bad_date symbol resolution from_ts to_ts e :
    history_params params E = inr (symbol, resolution, from_ts, to_ts) →
    rbind (fromtimestamp from_ts) (λ _, fromtimestamp to_ts) = inl e →
    outcome params E st (inr (), st, [Send 200 (error_response (str e))])
| outcome_cached symbol resolution from_ts to_ts cached :
    history_params params E = inr (symbol, resolution, from_ts, to_ts) →
    fromtimestamp from_ts = inr () →
    fromtimestamp to_ts = inr () →
    cache_lookup st (cache_key symbol resolution from_ts to_ts) (time_now E)
      = Some cached →
    outcome params E st (inr (), st, [Send 200 cached])
| outcome_upstream_error symbol resolution from_ts to_ts period interval e :
    history_params params E = inr (symbol, resolution, from_ts, to_ts) →
    fromtimestamp from_ts = inr () →
    fromtimestamp to_ts = inr () →
    cache_lookup st (cache_key symbol resolution from_ts to_ts) (time_now E) = None →
    select_window resolution = (period, interval) →
    ticker_history E symbol period interval = inl e →
    outcome params E st
      (inr (), st, [UpstreamCall symbol period interval;
                    Send 200 (error_response (str e))])
| outcome_no_data symbol resolution from_ts to_ts period interval hist :
    history_params params E = inr (symbol, resolution, from_ts, to_ts) →
    fromtimestamp from_ts = inr () →
    fromtimestamp to_ts = inr () →
    cache_lookup st (cache_key symbol resolution from_ts to_ts) (time_now E) = None →
    select_window resolution = (period, interval) →
    ticker_history E symbol period interval = inr hist →
    empty hist = true →
    outcome params E st
      (inr (), st, [UpstreamCall symbol period interval; Send 200 no_data_response])
| outcome_convert_error symbol resolution from_ts to_ts period interval hist e :
    history_params params E = inr (symbol, resolution, from_ts, to_ts) →
    fromtimestamp from_ts = inr () →
    fromtimestamp to_ts = inr () →
    cache_lookup st (cache_key symbol resolution from_ts to_ts) (time_now E) = None →
    select_window resolution = (period, interval) →
    ticker_history E symbol period interval = inr hist →
    empty hist = false →
    convert_rows hist from_ts to_ts (rows hist) [] = inl e →
    outcome params E st
      (inr (), st, [UpstreamCall symbol period interval;
                    Send 200 (error_response (str e))])
| outcome_fetched symbol resolution from_ts to_ts period interval hist bars :
    history_params params E = inr (symbol, resolution, from_ts, to_ts) →
    fromtimestamp from_ts = inr () →
    fromtimestamp to_ts = inr () →
    cache_lookup st (cache_key symbol resolution from_ts to_ts) (time_now E) = None →
    select_window resolution = (period, interval) →
    ticker_history E symbol period interval = inr hist →
    empty hist = false →
    convert_rows hist from_ts to_ts (rows hist) [] = inr bars →
    outcome params E st
      (inr (),
       cache_store st (cache_key symbol resolution from_ts to_ts)
         (ok_response (sort_bars bars)) (time_now E),
       [UpstreamCall symbol period interval;
        Send 200 (ok_response (sort_bars bars))]).

(** The states of the class attributes that a run of the server can
    reach: it starts with both maps empty and serves one request after
    the other. *)
Inductive reachable : Server → Prop :=
| reachable_initial : reachable initial
| reachable_request st req E :
    reachable st → reachable (state_of (do_GET req E st)).

End Handlers.

(** ** Reading a response, and what is stated about it *)

(** The value of the ["s"] field of a JSON body. *)
Definition status (body : json) : option string :=
  match body with
  | JDict items =>
      match jget "s" items with Some (JStr s) => Some s | _ => None end
  | _ => None
  end.

(** The array under a field of a JSON body. *)
Definition array (k : string) (body : json) : option (list json) :=
  match body with
  | JDict items =>
      match jget k items with Some (JList l) => Some l | _ => None end
  | _ => None
  end.

(** The integers of the ["t"] array. *)
Definition times (body : json) : list Z :=
  match array "t" body with
  | Some l => omap (λ j, match j with JInt z => Some z | _ => None end) l
  | None => []
  end.


(** A time in milliseconds that stands for a second inside the requested
    interval. *)
Definition within (from_ts to_ts ms : Z) : Prop :=
  ∃ timestamp, ms = timestamp * 1000 ∧ from_ts ≤ timestamp ≤ to_ts.

(** The server state without the entry of a key. *)
Definition forget (key : string) (st : Server) : Server :=
  {| data_cache := delete key (data_cache st);
     cache_expiry := delete key (cache_expiry st) |}.

(** Whether a character occurs in a string. *)
Fixpoint occurs (c : ascii) (s : string) : bool :=
  match s with
  | EmptyString => false
  | String c' s' => bool_decide (c = c') || occurs c s'
  end.

(** What holds of every entry of the cache in a running server: the value
    is a success envelope of bars sorted by time, and the bars lie in the
    interval of every request that is given this key. *)
Definition cache_invariant (st : Server) : Prop :=
  ∀ key v, data_cache st !! key = Some v →
    ∃ bars, v = ok_response bars ∧ Sorted time_le bars ∧
      ∀ symbol resolution from_ts to_ts,
        key = cache_key symbol resolution from_ts to_ts →
        Forall (within from_ts to_ts) (map time bars).

(** The exception, if any, that a fetch for these arguments meets: raised
    by the provider, or raised while the rows of its frame are converted. *)
Definition fetch_exception (E : Env) (symbol resolution : string) (from_ts to_ts : Z)
    : option PyException :=
  match ticker_history E symbol (select_window resolution).1 (select_window resolution).2 with
  | inl e => Some e
  | inr hist =>
      if empty hist then None
      else match convert_rows hist from_ts to_ts (rows hist) [] with
           | inl e => Some e
           | inr _ => None
           end
  end.



(** Spec wording: [part] is a substring of [text]. *)
Definition occurs_in (part text : string) : Prop :=
  ∃ before after, text = before +:+ part +:+ after.

(** Spec wording: two characters are the same when case is ignored: they
    are equal, or one is a lower-case letter a to z and the other is its
    capital. *)
Definition lower_case (c : ascii) : Prop :=
  (97 ≤ Ascii.N_of_ascii c ≤ 122)%N.

Definition same_letter (c d : ascii) : Prop :=
  c = d
  ∨ (lower_case c ∧ Ascii.N_of_ascii c = Ascii.N_of_ascii d + 32)%N
  ∨ (lower_case d ∧ Ascii.N_of_ascii d = Ascii.N_of_ascii c + 32)%N.

(** Spec wording: two texts are equal when case is ignored. *)
Inductive equal_ignoring_case : string → string → Prop :=
| equal_ignoring_case_empty : equal_ignoring_case "" ""
| equal_ignoring_case_letter c d s t :
    same_letter c d → equal_ignoring_case s t →
    equal_ignoring_case (String c s) (String d t).

(** Spec wording: a case-insensitive substring match: some substring of the
    text is the query when case is ignored. *)
Definition contains_ignoring_case (query text : string) : Prop :=
  ∃ part, equal_ignoring_case part query ∧ occurs_in part text.

(** Spec wording: the query matches the symbol code or the full name. *)
Definition matches_ignoring_case (query : string) (s : SymbolDescriptor) : Prop :=
  contains_ignoring_case query (symbol s) ∨ contains_ignoring_case query (full_name s).

(** The test of [handle_search] in words: the upper-case form of the query
    is a substring of the symbol code or of the upper-case form of the
    full name. *)
Definition matches_in_upper_case {runtime : PyRuntime} (query : string)
    (s : SymbolDescriptor) : Prop :=
  occurs_in (upper query) (symbol s) ∨ occurs_in (upper query) (upper (full_name s)).

(** ** A concrete platform *)

(** Decimal digits of a query-string value, most significant first. *)
Fixpoint digits_value (s : string) (acc : Z) : option Z :=
  match s with
  | EmptyString => Some acc
  | String c s' =>
      let n := Z.of_N (Ascii.N_of_ascii c) in
      if (48 <=? n) && (n <=? 57) then digits_value s' (10 * acc + (n - 48))
      else None
  end.

(** [int] on the plain decimal literals, with an optional minus sign; any
    other text is refused here (CPython accepts a few more spellings). *)
Definition decimal_int (s : string) : result Z :=
  let bad := inl (Raise "ValueError"
                    ("invalid literal for int() with base 10: '" +:+ s +:+ "'")) in
  match s with
  | EmptyString => bad
  | String "-" (String c r) =>
      match digits_value (String c r) 0 with Some n => inr (- n) | None => bad end
  | _ => match digits_value s 0 with Some n => inr n | None => bad end
  end.

(** [str.upper] on a text whose characters are those up to U+00FF and the
    long s U+017F: the letters a to z and the accented letters of latin-1
    become their capitals, the sharp s becomes SS, the micro sign becomes
    the Greek capital mu, y with diaeresis becomes U+0178 and the long s
    becomes S. Characters of other ranges are left as they are. *)
Fixpoint latin_upper (s : string) : string :=
  match s with
  | EmptyString => EmptyString
  | String c s' =>
      let n := Ascii.N_of_ascii c in
      match s' with
      | String d s'' =>
          let m := Ascii.N_of_ascii d in
          if (n =? 195)%N then
            if (m =? 159)%N then String "S" (String "S" (latin_upper s''))
            else if (m =? 191)%N then String "197" (String "184" (latin_upper s''))
            else if ((160 <=? m) && (m <=? 190) && negb (m =? 183))%N
                 then String c (String (Ascii.ascii_of_N (m - 32)) (latin_upper s''))
            else String c (String d (latin_upper s''))
          else if ((n =? 194) && (m =? 181))%N
               then String "206" (String "156" (latin_upper s''))
          else if ((n =? 197) && (m =? 191))%N then String "S" (latin_upper s'')
          else String (upper_char c) (latin_upper s')
      | EmptyString => String (upper_char c) EmptyString
      end
  end.

(** The code points of a text, from its UTF-8 bytes. [pending] bytes of
    the current character are still to come, and [acc] holds the bits read
    of it. *)
Fixpoint code_points (s : string) (pending : nat) (acc : N) : list N :=
  match s with
  | EmptyString => []
  | String c s' =>
      let n := Ascii.N_of_ascii c in
      match pending with
      | O =>
          if (n <? 128)%N then n :: code_points s' 0 0
          else if (n <? 224)%N then code_points s' 1 (n - 192)
          else if (n <? 240)%N then code_points s' 2 (n - 224)
          else code_points s' 3 (n - 240)
      | S O => (acc * 64 + (n - 128))%N :: code_points s' 0 0
      | S p => code_points s' p (acc * 64 + (n - 128))%N
      end
  end.

(** The [width] hexadecimal digits of [n], in lower case. *)
Fixpoint hex (width : nat) (n : N) (acc : string) : string :=
  match width with
  | O => acc
  | S w =>
      let d := (n mod 16)%N in
      let c := Ascii.ascii_of_N (if (d <? 10)%N then 48 + d else 87 + d) in
      hex w (n / 16)%N (String c acc)
  end.

(** The characters beyond U+00FF at the head of a list of code points. *)
Fixpoint beyond (cps : list N) : list N :=
  match cps with
  | cp :: rest => if (256 <=? cp)%N then cp :: beyond rest else []
  | [] => []
  end.

(** The position of the first character beyond U+00FF, counted from
    [position], and the stretch of such characters that starts there. *)
Fixpoint first_beyond (cps : list N) (position : nat) : nat * list N :=
  match cps with
  | [] => (position, [])
  | cp :: rest =>
      if (cp <? 256)%N then first_beyond rest (S position)
      else (position, beyond cps)
  end.

(** The message of the [UnicodeEncodeError] that encoding a text in latin-1
    raises: it names the first stretch of characters beyond U+00FF, by its
    position, and the character when the stretch has one. *)
Definition latin1_error_message (text : string) : string :=
  let '(before, stretch) := first_beyond (code_points text 0 0) 0 in
  match stretch with
  | [cp] =>
      "'latin-1' codec can't encode character '"
      +:+ (if (cp <? 65536)%N then "\u" +:+ hex 4 cp "" else "\U" +:+ hex 8 cp "")
      +:+ "' in position " +:+ pretty (Z.of_nat before)
      +:+ ": ordinal not in range(256)"
  | _ =>
      "'latin-1' codec can't encode characters in position "
      +:+ pretty (Z.of_nat before) +:+ "-"
      +:+ pretty (Z.of_nat (before + length stretch - 1))
      +:+ ": ordinal not in range(256)"
  end.

(** A 64-bit Linux build: dates of the years 1 to 9999 (UTC). *)
Definition linux_runtime : PyRuntime := {|
  py_int := decimal_int;
  ts_min := -62135596800;
  ts_max := 253402300799;
  fromtimestamp_error := λ _, Raise "ValueError" "year is out of range";
  unicode_upper := latin_upper;
  encode_error := λ text, Raise "UnicodeEncodeError" (latin1_error_message text)
|}.

(** ** Sample inputs *)

(** Cells of a row, by column label. *)
Definition row_cells (o h l c v : pyfloat) : string → pyfloat := λ label,
  if String.eqb label "Open" then o
  else if String.eqb label "High" then h
  else if String.eqb label "Low" then l
  else if String.eqb label "Close" then c
  else v.

Definition ohlcv : list string := ["Open"; "High"; "Low"; "Close"; "Volume"].

(** Three observations, not in time order; the third is later than the
    interval asked for below, and would not convert. *)
Definition sample_frame : DataFrame := {|
  columns := ohlcv;
  rows := [
    {| index_timestamp := 200;
       cells := row_cells (Finite (100125 # 1000)) (Finite 101) (Finite (299 # 3))
                          (Finite (1005 # 10)) (Finite 5300) |};
    {| index_timestamp := 100;
       cells := row_cells (Finite (100375 # 1000)) (Finite 102) (Finite 99)
                          (Finite (201 # 2)) NaN |};
    {| index_timestamp := 999;
       cells := row_cells (Finite 1) (Finite 3) (Finite 1) (Finite 2) (Inf false) |}
  ]
|}.

Definition sample_params : gmap string string :=
  {[ "symbol" := "MSFT"; "resolution" := "60"; "from" := "50"; "to" := "300" ]}.

(** A request served at time 1000 by a provider that answers with the
    sample frame. *)
Definition sample_env : Env := {|
  time_default := {| value := 1000; value_ok := eq_refl |};
  time_now := {| value := 1000; value_ok := eq_refl |};
  ticker_history := λ _ _ _, inr sample_frame
|}.

(** The answer to the sample request. *)
Definition sample_body : json :=
  JDict [("s", JStr "ok");
         ("t", JList [JInt 100000; JInt 200000]);
         ("o", JList [JFloat (Finite (10038 # 100)); JFloat (Finite (10012 # 100))]);
         ("h", JList [JFloat (Finite (10200 # 100)); JFloat (Finite (10100 # 100))]);
         ("l", JList [JFloat (Finite (9900 # 100)); JFloat (Finite (9967 # 100))]);
         ("c", JList [JFloat (Finite (10050 # 100)); JFloat (Finite (10050 # 100))]);
         ("v", JList [JInt 0; JInt 5300])].

(** A provider that fails with an exception that carries no message, as
    [raise Exception()] does. *)
Definition silent_failure_env : Env := {|
  time_default := {| value := 1000; value_ok := eq_refl |};
  time_now := {| value := 1000; value_ok := eq_refl |};
  ticker_history := λ _ _ _, inl (Raise "Exception" "")
|}.

(** A provider that has no observations, asked at time 900. *)
Definition no_data_env : Env := {|
  time_default := {| value := 900; value_ok := eq_refl |};
  time_now := {| value := 900; value_ok := eq_refl |};
  ticker_history := λ _ _ _, inr {| columns := ohlcv; rows := [] |}
|}.

(** A later request, at time 1100, to a provider that fails. *)
Definition later_env : Env := {|
  time_default := {| value := 1100; value_ok := eq_refl |};
  time_now := {| value := 1100; value_ok := eq_refl |};
  ticker_history := λ _ _ _, inl (Raise "ConnectionError" "connection refused")
|}.

(** A request at time 1250, served whatever the provider would say. *)
Definition second_env : Env := {|
  time_default := {| value := 1250; value_ok := eq_refl |};
  time_now := {| value := 1250; value_ok := eq_refl |};
  ticker_history := λ _ _ _, inl (Raise "ConnectionError" "connection refused")
|}.

(** A request at time 1350, when the provider has no observations left. *)
Definition third_env : Env := {|
  time_default := {| value := 1350; value_ok := eq_refl |};
  time_now := {| value := 1350; value_ok := eq_refl |};
  ticker_history := λ _ _ _, inr {| columns := ohlcv; rows := [] |}
|}.

(** A request after the entry of time 1000 has expired, at time 1300. *)
Definition expired_env : Env := {|
  time_default := {| value := 1300; value_ok := eq_refl |};
  time_now := {| value := 1300; value_ok := eq_refl |};
  ticker_history := λ _ _ _, inl (Raise "ConnectionError" "connection refused")
|}.

(** A clock reading of January 2038, the float nearest to 2147483500.7,
    and the float sum of it and 300, which is below the exact sum. *)
Definition late_clock : binary64 :=
  {| value := 9007198636920013 # 4194304; value_ok := eq_refl |}.

Definition late_clock_300 : binary64 :=
  {| value := 2251799973802803 # 1048576; value_ok := eq_refl |}.

(** A request at the first of these readings, and one at the second, when
    the provider has no observations left. *)
Definition late_env : Env := {|
  time_default := late_clock;
  time_now := late_clock;
  ticker_history := λ _ _ _, inr sample_frame
|}.

Definition late_env_300 : Env := {|
  time_default := late_clock_300;
  time_now := late_clock_300;
  ticker_history := λ _ _ _, inr {| columns := ohlcv; rows := [] |}
|}.

(** A frame whose only row is missing its closing price column. *)
Definition broken_frame : DataFrame := {|
  columns := ["Open"; "High"; "Low"; "Volume"];
  rows := [ {| index_timestamp := 100;
               cells := row_cells (Finite 1) (Finite 3) (Finite 1) NaN (Finite 7) |} ]
|}.

Definition broken_env : Env := {|
  time_default := {| value := 1000; value_ok := eq_refl |};
  time_now := {| value := 1000; value_ok := eq_refl |};
  ticker_history := λ _ _ _, inr broken_frame
|}.



(** The sample request as [do_GET] receives it, and the state of the server
    once it has been served. *)
Definition sample_request : Request :=
  {| path := "/history"; query_params := sample_params |}.

Definition warm : Server :=
  state_of (@do_GET linux_runtime sample_request sample_env initial).


(** ** Further notions used in the statements *)


(** The six paths that [do_GET] routes. *)
Definition routes : list string :=
  ["/config"; "/symbol_info"; "/symbols"; "/search"; "/history"; "/time"].

(** A row that [make_bar] can convert: the four price columns are there,
    and the volume cell, if there is a volume column, is not infinite. *)
Definition convertible (hist : DataFrame) (row : Row) : Prop :=
  "Open" ∈ columns hist ∧ "High" ∈ columns hist
  ∧ "Low" ∈ columns hist ∧ "Close" ∈ columns hist
  ∧ ("Volume" ∈ columns hist → ∀ negative, cells row "Volume" ≠ Inf negative).

(** The state of the server after a sequence of GET requests, each with
    its clock and its provider. *)
Fixpoint serve {runtime : PyRuntime} (requests : list (Request * Env)) (st : Server)
    : Server :=
  match requests with
  | [] => st
  | (req, E) :: rest => serve rest (state_of (do_GET req E st))
  end.

(** ** Further sample inputs *)

Definition unknown_request : Request :=
  {| path := "/quotes"; query_params := ∅ |}.

Definition search_request : Request :=
  {| path := "/search"; query_params := {[ "query" := "inc"; "limit" := "2" ]} |}.



(** The sample request with a to parameter that is not a number. *)
Definition bad_to_params : gmap string string := <["to" := "10x"]> sample_params.

(** The sample request without its to parameter. *)
Definition no_to_params : gmap string string := delete "to" sample_params.

(** The sample request with the interval turned around. *)
Definition reversed_params : gmap string string :=
  <["from" := "400"]> sample_params.


(** Two requests whose symbols and resolutions differ and whose cache keys
    are the same. *)
Definition brk_b_params : gmap string string :=
  {[ "symbol" := "BRK_B"; "resolution" := "60"; "from" := "50"; "to" := "300" ]}.

Definition brk_params : gmap string string :=
  {[ "symbol" := "BRK"; "resolution" := "B_60"; "from" := "50"; "to" := "300" ]}.

(** The sample frame without its last row. *)
Definition trimmed_frame : DataFrame :=
  {| columns := ohlcv; rows := take 2 (rows sample_frame) |}.

(** Two observations in time order. *)
Definition ordered_frame : DataFrame := {|
  columns := ohlcv;
  rows := [
    {| index_timestamp := 100;
       cells := row_cells (Finite 10) (Finite 12) (Finite 9) (Finite 11) (Finite 40) |};
    {| index_timestamp := 200;
       cells := row_cells (Finite 11) (Finite 13) (Finite 10) (Finite 12) (Finite 50) |}
  ]
|}.

Definition ordered_env : Env := {|
  time_default := {| value := 1000; value_ok := eq_refl |};
  time_now := {| value := 1000; value_ok := eq_refl |};
  ticker_history := λ _ _ _, inr ordered_frame
|}.

Definition ordered_body : json :=
  JDict [("s", JStr "ok");
         ("t", JList [JInt 100000; JInt 200000]);
         ("o", JList [JFloat (Finite (1000 # 100)); JFloat (Finite (1100 # 100))]);
         ("h", JList [JFloat (Finite (1200 # 100)); JFloat (Finite (1300 # 100))]);
         ("l", JList [JFloat (Finite (900 # 100)); JFloat (Finite (1000 # 100))]);
         ("c", JList [JFloat (Finite (1100 # 100)); JFloat (Finite (1200 # 100))]);
         ("v", JList [JInt 40; JInt 50])].
(** * Properties of the arithmetic *)

(** ** Rounding to the nearest *)

Lemma pow2_pos e : (0 < 2 ^ e)%Q.
Proof. by apply Qpower_0_lt. Qed.

Lemma pow2_Z n : 0 <= n -> (2 ^ n == inject_Z (2 ^ n))%Q.
Proof. intros Hn. symmetry. exact (Zpower_Qpower 2 n Hn). Qed.

Lemma pow2_succ e : (2 ^ (e + 1) == 2 * 2 ^ e)%Q.
Proof. rewrite Qpower_plus by easy. rewrite Qpower_1_r. ring. Qed.

Lemma Qdiv_le_cross (a b c d : Q) :
  (0 < b)%Q -> (0 < d)%Q -> (a * d <= c * b)%Q -> (a / b <= c / d)%Q.
Proof.
  intros Hb Hd Hcross.
  apply Qle_shift_div_l; [exact Hd|].
  assert (a / b * d == (a * d) / b)%Q as -> by (field; lra).
  apply Qle_shift_div_r; [exact Hb|exact Hcross].
Qed.

Lemma Qdiv_lt_cross (a b c d : Q) :
  (0 < b)%Q -> (0 < d)%Q -> (a * d < c * b)%Q -> (a / b < c / d)%Q.
Proof.
  intros Hb Hd Hcross.
  apply Qlt_shift_div_l; [exact Hd|].
  assert (a / b * d == (a * d) / b)%Q as -> by (field; lra).
  apply Qlt_shift_div_r; [exact Hb|exact Hcross].
Qed.

Lemma exponent_spec q :
  ~ (q == 0)%Q -> (2 ^ exponent q <= Qabs q < 2 ^ (exponent q + 1))%Q.
Proof.
  intros Hq. unfold exponent.
  destruct q as [n d]. cbn [Qnum Qden].
  assert (n <> 0) as Hn.
  { intros ->. apply Hq. reflexivity. }
  set (a := Z.abs n). assert (0 < a) as Ha by (unfold a; lia).
  assert (Qabs (n # d) = a # d) as Habs by reflexivity.
  rewrite Habs.
  pose proof (Z.log2_spec a Ha) as [HL1 HL2].
  pose proof (Z.log2_spec (Zpos d) eq_refl) as [HM1 HM2].
  pose proof (Z.log2_nonneg a) as HLn.
  pose proof (Z.log2_nonneg (Zpos d)) as HMn.
  set (L := Z.log2 a) in *. set (M := Z.log2 (Zpos d)) in *.
  assert (a # d == inject_Z a / inject_Z (Zpos d))%Q as Hdiv by apply Qmake_Qdiv.
  assert (0 < inject_Z (Zpos d))%Q as Hdpos.
  { change 0%Q with (inject_Z 0). rewrite <-Zlt_Qlt. lia. }
  assert (2 ^ L <= inject_Z a)%Q as QL1.
  { rewrite pow2_Z by lia. rewrite <-Zle_Qle. exact HL1. }
  assert (inject_Z a < 2 ^ (L + 1))%Q as QL2.
  { rewrite pow2_Z by lia. rewrite <-Zlt_Qlt. exact HL2. }
  assert (2 ^ M <= inject_Z (Zpos d))%Q as QM1.
  { rewrite pow2_Z by lia. rewrite <-Zle_Qle. exact HM1. }
  assert (inject_Z (Zpos d) < 2 ^ (M + 1))%Q as QM2.
  { rewrite pow2_Z by lia. rewrite <-Zlt_Qlt. exact HM2. }
  pose proof (pow2_pos L) as PL. pose proof (pow2_pos (L + 1)) as PL1.
  pose proof (pow2_pos M) as PM. pose proof (pow2_pos (M + 1)) as PM1.
  assert (2 ^ (L - M - 1) <= a # d)%Q as Hlow.
  { rewrite Hdiv. replace (L - M - 1) with (L - (M + 1)) by lia.
    rewrite Qpower_minus by easy.
    apply Qdiv_le_cross; [easy|easy|]. nra. }
  assert (a # d < 2 ^ (L - M + 1))%Q as Hhigh.
  { rewrite Hdiv. replace (L - M + 1) with ((L + 1) - M) by lia.
    rewrite Qpower_minus by easy.
    apply Qdiv_lt_cross; [easy|easy|]. nra. }
  destruct (Qle_bool (2 ^ (L - M)) (a # d)) eqn:Htest.
  - apply Qle_bool_iff in Htest. split; [exact Htest|exact Hhigh].
  - assert (a # d < 2 ^ (L - M))%Q as Hlt.
    { apply Qnot_le_lt. intros Hle%Qle_bool_iff. congruence. }
    split; [exact Hlow|]. replace (L - M - 1 + 1) with (L - M) by lia. exact Hlt.
Qed.

Lemma round_half_even_near q :
  (q - (1 # 2) <= inject_Z (round_half_even q) <= q + (1 # 2))%Q.
Proof.
  unfold round_half_even.
  pose proof (Qfloor_le q) as Hlo. pose proof (Qlt_floor q) as Hhi.
  rewrite inject_Z_plus in Hhi. change (inject_Z 1) with 1%Q in Hhi.
  destruct (Qcompare_spec (q - inject_Z (Qfloor q)) (1 # 2)) as [Heq|Hlt|Hgt].
  - destruct (Z.even (Qfloor q)).
    + split; lra.
    + rewrite inject_Z_plus. change (inject_Z 1) with 1%Q. split; lra.
  - split; lra.
  - rewrite inject_Z_plus. change (inject_Z 1) with 1%Q. split; lra.
Qed.

Lemma round_half_even_comp (a b : Q) :
  (a == b)%Q -> round_half_even a = round_half_even b.
Proof.
  intros Hab. unfold round_half_even.
  rewrite (Qfloor_comp _ _ Hab).
  assert ((a - inject_Z (Qfloor b) ?= 1 # 2) = (b - inject_Z (Qfloor b) ?= 1 # 2))%Q as ->.
  { apply Qcompare_comp; [|reflexivity]. rewrite Hab. reflexivity. }
  reflexivity.
Qed.

Lemma round_half_even_Z n : round_half_even (inject_Z n) = n.
Proof.
  unfold round_half_even. rewrite Qfloor_Z.
  destruct (Qcompare_spec (inject_Z n - inject_Z n) (1 # 2)) as [Heq|Hlt|Hgt];
    [exfalso; lra|done|exfalso; lra].
Qed.

Lemma round_half_even_mono (a b : Q) :
  (a <= b)%Q -> round_half_even a ≤ round_half_even b.
Proof.
  intros Hab.
  destruct (Z_lt_le_dec (round_half_even b) (round_half_even a)) as [Hlt|]; [|done].
  exfalso.
  pose proof (round_half_even_near a) as [_ Ha].
  pose proof (round_half_even_near b) as [Hb _].
  assert (inject_Z (round_half_even b) + 1 <= inject_Z (round_half_even a))%Q as Hstep.
  { change 1%Q with (inject_Z 1). rewrite <-inject_Z_plus, <-Zle_Qle. lia. }
  assert (a == b)%Q as Heq by lra.
  apply round_half_even_comp in Heq. lia.
Qed.

Lemma Qabs_case_pos q : (0 < q)%Q -> (Qabs q == q)%Q.
Proof. intros. apply Qabs_pos. lra. Qed.

Lemma Qabs_case_neg q : (q < 0)%Q -> (Qabs q == - q)%Q.
Proof. intros. apply Qabs_neg. lra. Qed.

Lemma fl_nonzero q :
  ~ (q == 0)%Q ->
  (fl q == inject_Z (round_half_even (q / ulp q)) * ulp q)%Q.
Proof.
  intros Hq. unfold fl.
  destruct (Qeq_bool q 0) eqn:Hz; [apply Qeq_bool_iff in Hz; contradiction|].
  apply Qred_correct.
Qed.

Lemma fl_zero q : (q == 0)%Q -> fl q = 0%Q.
Proof. intros Hq. unfold fl. by rewrite (proj2 (Qeq_bool_iff q 0) Hq). Qed.

Lemma ulp_pos q : (0 < ulp q)%Q.
Proof. apply pow2_pos. Qed.

Lemma pow2_split e : (2 ^ e == inject_Z (2 ^ 52) * 2 ^ (e - 52))%Q.
Proof.
  rewrite <-pow2_Z by lia. rewrite <-Qpower_plus by easy.
  by replace (52 + (e - 52)) with e by lia.
Qed.

(** The rounding of a positive number stays in its binade. *)
Lemma fl_pos_bounds q :
  (0 < q)%Q -> (2 ^ exponent q <= fl q <= 2 ^ (exponent q + 1))%Q.
Proof.
  intros Hq.
  assert (~ (q == 0)%Q) as Hnz by lra.
  destruct (exponent_spec q Hnz) as [Hlo Hhi].
  rewrite (Qabs_case_pos q Hq) in Hlo, Hhi.
  rewrite (fl_nonzero q Hnz).
  pose proof (ulp_pos q) as Hu. unfold ulp in *.
  set (u := (2 ^ (exponent q - 52))%Q) in *.
  rewrite (pow2_split (exponent q)) in Hlo. fold u in Hlo.
  rewrite (pow2_split (exponent q + 1)) in Hhi |- *.
  rewrite (pow2_split (exponent q)).
  replace (exponent q + 1 - 52) with ((exponent q - 52) + 1) in * by lia.
  rewrite pow2_succ in Hhi |- *. fold u in Hhi |- *.
  assert (inject_Z (2 ^ 52) <= q / u)%Q as H1.
  { apply Qle_shift_div_l; [exact Hu|exact Hlo]. }
  assert (q / u <= inject_Z (2 ^ 53))%Q as H2.
  { apply Qle_shift_div_r; [exact Hu|].
    change (2 ^ 53) with (2 ^ 52 * 2). rewrite inject_Z_mult.
    change (inject_Z 2) with 2%Q. lra. }
  apply round_half_even_mono in H1, H2. rewrite round_half_even_Z in H1, H2.
  rewrite Zle_Qle in H1, H2.
  split.
  - apply Qmult_le_compat_r; [exact H1|lra].
  - apply Qle_trans with (inject_Z (2 ^ 53) * u)%Q.
    + apply Qmult_le_compat_r; [exact H2|lra].
    + change (2 ^ 53) with (2 ^ 52 * 2). rewrite inject_Z_mult.
      change (inject_Z 2) with 2%Q. lra.
Qed.

Lemma fl_neg_bounds q :
  (q < 0)%Q -> (- 2 ^ (exponent q + 1) <= fl q <= - 2 ^ exponent q)%Q.
Proof.
  intros Hq.
  assert (~ (q == 0)%Q) as Hnz by lra.
  destruct (exponent_spec q Hnz) as [Hlo Hhi].
  rewrite (Qabs_case_neg q Hq) in Hlo, Hhi.
  rewrite (fl_nonzero q Hnz).
  pose proof (ulp_pos q) as Hu. unfold ulp in *.
  set (u := (2 ^ (exponent q - 52))%Q) in *.
  rewrite (pow2_split (exponent q)) in Hlo. fold u in Hlo.
  rewrite (pow2_split (exponent q + 1)) in Hhi |- *.
  rewrite (pow2_split (exponent q)).
  replace (exponent q + 1 - 52) with ((exponent q - 52) + 1) in * by lia.
  rewrite pow2_succ in Hhi |- *. fold u in Hhi |- *.
  assert (q / u <= inject_Z (- 2 ^ 52))%Q as H1.
  { apply Qle_shift_div_r; [exact Hu|].
    rewrite inject_Z_opp. lra. }
  assert (inject_Z (- 2 ^ 53) <= q / u)%Q as H2.
  { apply Qle_shift_div_l; [exact Hu|].
    change (- 2 ^ 53) with (- (2 ^ 52 * 2)). rewrite inject_Z_opp, inject_Z_mult.
    change (inject_Z 2) with 2%Q. lra. }
  apply round_half_even_mono in H1, H2. rewrite round_half_even_Z in H1, H2.
  rewrite Zle_Qle in H1, H2.
  split.
  - apply Qle_trans with (inject_Z (- 2 ^ 53) * u)%Q.
    + change (- 2 ^ 53) with (- (2 ^ 52 * 2)). rewrite inject_Z_opp, inject_Z_mult.
      change (inject_Z 2) with 2%Q. lra.
    + apply Qmult_le_compat_r; [exact H2|lra].
  - apply Qle_trans with (inject_Z (- 2 ^ 52) * u)%Q.
    + apply Qmult_le_compat_r; [exact H1|lra].
    + rewrite inject_Z_opp. lra.
Qed.

Lemma exponent_mono_pos a b :
  (0 < a)%Q -> (a <= b)%Q -> exponent a ≤ exponent b.
Proof.
  intros Ha Hab.
  destruct (exponent_spec a) as [Hlo _]; [lra|].
  destruct (exponent_spec b) as [_ Hhi]; [lra|].
  rewrite Qabs_case_pos in Hlo by lra. rewrite Qabs_case_pos in Hhi by lra.
  assert (2 ^ exponent a < 2 ^ (exponent b + 1))%Q as Hlt by lra.
  apply Qpower_lt_compat_l_inv in Hlt; [lia|lra].
Qed.

Lemma exponent_mono_neg a b :
  (b < 0)%Q -> (a <= b)%Q -> exponent b ≤ exponent a.
Proof.
  intros Hb Hab.
  destruct (exponent_spec b) as [Hlo _]; [lra|].
  destruct (exponent_spec a) as [_ Hhi]; [lra|].
  rewrite Qabs_case_neg in Hlo by lra. rewrite Qabs_case_neg in Hhi by lra.
  assert (2 ^ exponent b < 2 ^ (exponent a + 1))%Q as Hlt by lra.
  apply Qpower_lt_compat_l_inv in Hlt; [lia|lra].
Qed.

Lemma fl_same_exponent a b :
  ~ (a == 0)%Q -> ~ (b == 0)%Q -> exponent a = exponent b ->
  (a <= b)%Q -> (fl a <= fl b)%Q.
Proof.
  intros Ha Hb He Hab.
  rewrite (fl_nonzero a Ha), (fl_nonzero b Hb). unfold ulp. rewrite He.
  pose proof (pow2_pos (exponent b - 52)) as Hu.
  apply Qmult_le_compat_r; [|lra].
  rewrite <-Zle_Qle. apply round_half_even_mono.
  apply Qmult_le_compat_r; [exact Hab|].
  apply Qlt_le_weak, Qinv_lt_0_compat, Hu.
Qed.

(** Rounding to the nearest binary64 keeps the order. *)
Lemma fl_mono a b : (a <= b)%Q -> (fl a <= fl b)%Q.
Proof.
  intros Hab.
  destruct (Q_dec a 0) as [[Ha|Ha]|Ha]; destruct (Q_dec b 0) as [[Hb|Hb]|Hb].
  - (* both negative *)
    pose proof (exponent_mono_neg a b Hb Hab) as He.
    destruct (Z.eq_dec (exponent a) (exponent b)) as [Heq|Hne].
    + apply fl_same_exponent; try done; lra.
    + destruct (fl_neg_bounds a Ha) as [_ Hfa].
      destruct (fl_neg_bounds b Hb) as [Hfb _].
      assert (2 ^ (exponent b + 1) <= 2 ^ exponent a)%Q.
      { apply Qpower_le_compat_l; [lia|lra]. }
      lra.
  - destruct (fl_neg_bounds a Ha) as [_ Hfa].
    destruct (fl_pos_bounds b Hb) as [Hfb _].
    pose proof (pow2_pos (exponent a)). pose proof (pow2_pos (exponent b)). lra.
  - destruct (fl_neg_bounds a Ha) as [_ Hfa].
    rewrite (fl_zero b Hb). pose proof (pow2_pos (exponent a)). lra.
  - lra.
  - pose proof (exponent_mono_pos a b Ha Hab) as He.
    destruct (Z.eq_dec (exponent a) (exponent b)) as [Heq|Hne].
    + apply fl_same_exponent; try done; lra.
    + destruct (fl_pos_bounds a Ha) as [_ Hfa].
      destruct (fl_pos_bounds b Hb) as [Hfb _].
      assert (2 ^ (exponent a + 1) <= 2 ^ exponent b)%Q.
      { apply Qpower_le_compat_l; [lia|lra]. }
      lra.
  - lra.
  - lra.
  - rewrite (fl_zero a Ha).
    destruct (fl_pos_bounds b Hb) as [Hfb _]. pose proof (pow2_pos (exponent b)). lra.
  - rewrite (fl_zero a Ha), (fl_zero b Hb). lra.
Qed.

(** The rounding is within half a gap of the number. *)
Lemma fl_near q : (Qabs (fl q - q) <= ulp q * (1 # 2))%Q.
Proof.
  destruct (Qeq_dec q 0) as [Hz|Hnz].
  - rewrite (fl_zero q Hz). pose proof (ulp_pos q).
    apply Qabs_Qle_condition. split; lra.
  - rewrite (fl_nonzero q Hnz).
    pose proof (ulp_pos q) as Hu.
    pose proof (round_half_even_near (q / ulp q)) as [Hlo Hhi].
    assert (q == q / ulp q * ulp q)%Q as Hq by (field; lra).
    apply Qabs_Qle_condition. split.
    + apply (Qmult_le_compat_r _ _ (ulp q)) in Hlo; [|lra]. lra.
    + apply (Qmult_le_compat_r _ _ (ulp q)) in Hhi; [|lra]. lra.
Qed.

(** A clock reading is its own rounding. *)
Lemma binary64_fl (x : binary64) : (fl x == x)%Q.
Proof.
  destruct x as [q Hq]. simpl. unfold is_binary64 in Hq.
  apply andb_true_iff in Hq as [Hq _]. apply andb_true_iff in Hq as [Hq _].
  by apply Qeq_bool_iff.
Qed.

(** A float sum does not pass a float that the exact sum does not pass. *)
Lemma float_add_below a b (y : binary64) :
  (a + b <= y)%Q → (float_add a b <= y)%Q.
Proof.
  intros Hle. unfold float_add. rewrite <-(binary64_fl y). by apply fl_mono.
Qed.

Lemma float_add_above a b (y : binary64) :
  (y <= a + b)%Q → (y <= float_add a b)%Q.
Proof.
  intros Hle. unfold float_add. rewrite <-(binary64_fl y) at 1. by apply fl_mono.
Qed.


(** * Properties *)

(** ** Sorting the bars *)

Lemma insert_bar_perm b l : Permutation (insert_bar b l) (b :: l).
Proof.
  induction l as [|x l IH]; simpl; [done|].
  destruct (time b <=? time x); [done|].
  rewrite IH. apply perm_swap.
Qed.

Lemma sort_bars_perm l : Permutation (sort_bars l) l.
Proof.
  induction l as [|b l IH]; simpl; [done|].
  rewrite insert_bar_perm. by constructor.
Qed.

Lemma insert_bar_sorted b l :
  Sorted time_le l → Sorted time_le (insert_bar b l).
Proof.
  induction l as [|x l IH]; simpl; intros Hs.
  - repeat constructor.
  - destruct (Z.leb_spec (time b) (time x)) as [Hle|Hgt].
    + constructor; [done|]. constructor. exact Hle.
    + inversion Hs as [|? ? Hs' Hhd]; subst.
      constructor; [by apply IH|].
      destruct l as [|y l]; simpl.
      * constructor. unfold time_le. lia.
      * destruct (time b <=? time y).
        -- constructor. unfold time_le. lia.
        -- constructor. by inversion Hhd.
Qed.

Lemma sort_bars_sorted l : Sorted time_le (sort_bars l).
Proof.
  induction l as [|b l IH]; simpl; [constructor|].
  by apply insert_bar_sorted.
Qed.

Lemma sorted_map_time l : Sorted time_le l → Sorted Z.le (map time l).
Proof.
  induction 1 as [|b l Hs IH Hhd]; simpl; constructor; [done|].
  destruct Hhd; simpl; constructor. done.
Qed.

(** The sort is stable: the bars of one time keep their order. *)
Lemma insert_bar_stable t b l :
  Sorted time_le l →
  List.filter (λ x, time x =? t) (insert_bar b l)
  = List.filter (λ x, time x =? t) (b :: l).
Proof.
  induction l as [|x l IH]; intros Hs; [done|].
  cbn [insert_bar]. destruct (Z.leb_spec (time b) (time x)) as [Hle|Hgt]; [done|].
  inversion Hs; subst.
  cbn [List.filter] in *. rewrite IH by done.
  destruct (Z.eqb_spec (time x) t), (Z.eqb_spec (time b) t); try done. lia.
Qed.

Lemma sort_bars_stable t l :
  List.filter (λ x, time x =? t) (sort_bars l) = List.filter (λ x, time x =? t) l.
Proof.
  induction l as [|b l IH]; [done|].
  cbn [sort_bars]. rewrite insert_bar_stable by apply sort_bars_sorted.
  cbn [List.filter]. by rewrite IH.
Qed.

(** ** Building the bars *)

Lemma getitem_inr hist row label x :
  getitem hist row label = inr x → label ∈ columns hist ∧ x = cells row label.
Proof.
  unfold getitem. case_bool_decide; intros ?; by simplify_eq.
Qed.

Lemma getitem_inl hist row label e :
  getitem hist row label = inl e → e = KeyError label.
Proof.
  unfold getitem. case_bool_decide; intros ?; by simplify_eq.
Qed.

Lemma volume_of_eq hist row :
  volume_of hist row
  = if bool_decide ("Volume" ∈ columns hist) then
      if notna (cells row "Volume") then int (cells row "Volume") else inr 0
    else inr 0.
Proof.
  unfold volume_of, getitem. by case_bool_decide.
Qed.

Lemma make_bar_inr hist timestamp row b :
  make_bar hist timestamp row = inr b →
  b = {| time := timestamp * 1000;
         open := round2 (cells row "Open");
         high := round2 (cells row "High");
         low := round2 (cells row "Low");
         close := round2 (cells row "Close");
         volume := volume b |}
  ∧ volume_of hist row = inr (volume b).
Proof.
  unfold make_bar, rbind.
  destruct (getitem hist row "Open") as [|o] eqn:Ho; [done|].
  destruct (getitem hist row "High") as [|h] eqn:Hh; [done|].
  destruct (getitem hist row "Low") as [|l] eqn:Hl; [done|].
  destruct (getitem hist row "Close") as [|c] eqn:Hc; [done|].
  apply getitem_inr in Ho as [_ ->], Hh as [_ ->], Hl as [_ ->], Hc as [_ ->].
  destruct (volume_of hist row) as [|v]; [done|].
  by intros [= <-].
Qed.

(** A failing conversion of a row says why. *)
Lemma make_bar_inl hist timestamp row e :
  make_bar hist timestamp row = inl e → str e ≠ "".
Proof.
  unfold make_bar, rbind.
  destruct (getitem hist row "Open") as [e'|o] eqn:Ho;
    [apply getitem_inl in Ho as ->; by intros [= <-]|].
  destruct (getitem hist row "High") as [e'|h] eqn:Hh;
    [apply getitem_inl in Hh as ->; by intros [= <-]|].
  destruct (getitem hist row "Low") as [e'|l] eqn:Hl;
    [apply getitem_inl in Hl as ->; by intros [= <-]|].
  destruct (getitem hist row "Close") as [e'|c] eqn:Hc;
    [apply getitem_inl in Hc as ->; by intros [= <-]|].
  rewrite volume_of_eq.
  case_bool_decide as Hv; [|done].
  destruct (cells row "Volume") as [q|neg|]; simpl; try done.
  by intros [= <-].
Qed.

Lemma convert_rows_inr hist from_ts to_ts rs acc bars :
  convert_rows hist from_ts to_ts rs acc = inr bars →
  ∃ new, bars = acc ++ new ∧
    Forall2 (λ row b, make_bar hist (second_timestamp row) row = inr b)
            (kept from_ts to_ts rs) new.
Proof.
  revert acc. induction rs as [|row rs IH]; intros acc; cbn [convert_rows].
  - intros [= <-]. exists []. split; [by rewrite app_nil_r|constructor].
  - unfold kept. cbn [List.filter].
    destruct (in_range from_ts to_ts (second_timestamp row)).
    + unfold rbind.
      destruct (make_bar hist (second_timestamp row) row) as [|b] eqn:Hb; [done|].
      intros Hrec. apply IH in Hrec as (new & -> & Hall).
      exists (b :: new). split; [by rewrite <-app_assoc|by constructor].
    + apply IH.
Qed.

Lemma convert_rows_inl hist from_ts to_ts rs acc e :
  convert_rows hist from_ts to_ts rs acc = inl e → str e ≠ "".
Proof.
  revert acc. induction rs as [|row rs IH]; intros acc; cbn [convert_rows]; [done|].
  destruct (in_range from_ts to_ts (second_timestamp row)); [|apply IH].
  unfold rbind.
  destruct (make_bar hist (second_timestamp row) row) as [e'|b] eqn:Hb.
  - intros [= <-]. by eapply make_bar_inl.
  - apply IH.
Qed.

Lemma in_range_spec from_ts to_ts timestamp :
  in_range from_ts to_ts timestamp = true ↔ from_ts ≤ timestamp ≤ to_ts.
Proof. unfold in_range. rewrite andb_true_iff, !Z.leb_le. done. Qed.

Lemma convert_rows_times hist from_ts to_ts bars :
  convert_rows hist from_ts to_ts (rows hist) [] = inr bars →
  map time bars
  = map (λ row, second_timestamp row * 1000) (kept from_ts to_ts (rows hist)).
Proof.
  intros (new & -> & Hall)%convert_rows_inr. simpl.
  induction Hall as [|row b rs bs Hb _ IH]; [done|].
  simpl. rewrite IH. f_equal.
  apply make_bar_inr in Hb as [-> _]. done.
Qed.

Lemma kept_within from_ts to_ts rs :
  Forall (within from_ts to_ts)
    (map (λ row, second_timestamp row * 1000) (kept from_ts to_ts rs)).
Proof.
  apply Forall_map, Forall_forall. intros row Hin.
  apply list_elem_of_In, filter_In in Hin as [_ Hr].
  apply in_range_spec in Hr. by exists (second_timestamp row).
Qed.

Lemma convert_rows_within hist from_ts to_ts bars :
  convert_rows hist from_ts to_ts (rows hist) [] = inr bars →
  Forall (within from_ts to_ts) (map time bars).
Proof.
  intros ->%convert_rows_times. apply kept_within.
Qed.

(** ** One history request *)

Section History.
Context {runtime : PyRuntime}.

Lemma fromtimestamp_inr ts :
  fromtimestamp ts = inr () ↔ ts_min ≤ ts ≤ ts_max.
Proof.
  unfold fromtimestamp. rewrite <-in_range_spec.
  destruct (in_range ts_min ts_max ts); naive_solver.
Qed.

(** The date printed after a fetch is always a valid one: the last bar lies
    between two timestamps that were printed before. *)
Lemma latest_date_inr from_ts to_ts bars :
  fromtimestamp from_ts = inr () →
  fromtimestamp to_ts = inr () →
  Forall (within from_ts to_ts) (map time bars) →
  latest_date bars = inr ().
Proof.
  intros Hf%fromtimestamp_inr Ht%fromtimestamp_inr Hall. unfold latest_date.
  destruct (last bars) as [b|] eqn:Hlast; [|done].
  apply last_Some_elem_of in Hlast.
  rewrite Forall_map, Forall_forall in Hall.
  destruct (Hall b Hlast) as (ts & -> & Hts).
  rewrite Z.div_mul by done. apply fromtimestamp_inr. lia.
Qed.

Lemma sort_bars_within from_ts to_ts bars :
  Forall (within from_ts to_ts) (map time bars) →
  Forall (within from_ts to_ts) (map time (sort_bars bars)).
Proof.
  intros Hall. by rewrite sort_bars_perm.
Qed.

(** Every history request goes one of the ways of [outcome]. In
    particular the handler returns, and never raises. *)
Lemma handle_history_outcome params E st :
  outcome params E st (handle_history params E st).
Proof.
  unfold handle_history, try_except, bind, lift.
  destruct (history_params params E) as [e|[[[symbol resolution] from_ts] to_ts]] eqn:Hp.
  { by apply outcome_bad_params. }
  unfold fetch_history, bind, lift, get_state, send_json_response, emit.
  destruct (fromtimestamp from_ts) as [e|[]] eqn:Hf.
  { simpl. eapply outcome_bad_date; [done|]. by rewrite Hf. }
  destruct (fromtimestamp to_ts) as [e|[]] eqn:Ht.
  { simpl. eapply outcome_bad_date; [done|]. by rewrite Hf. }
  destruct (cache_lookup st _ _) as [cached|] eqn:Hc.
  { simpl. by eapply outcome_cached. }
  destruct (select_window resolution) as [period interval] eqn:Hw.
  unfold bind, emit, lift.
  destruct (ticker_history E symbol period interval) as [e|hist] eqn:Hu.
  { simpl. by eapply outcome_upstream_error. }
  destruct (empty hist) eqn:He.
  { simpl. by eapply outcome_no_data. }
  unfold bind, lift, put_state.
  destruct (convert_rows hist from_ts to_ts (rows hist) []) as [e|bars] eqn:Hb.
  { simpl. by eapply outcome_convert_error. }
  rewrite (latest_date_inr from_ts to_ts).
  - simpl. by eapply outcome_fetched.
  - done.
  - done.
  - by apply sort_bars_within, convert_rows_within with hist.
Qed.

End History.

(** Case analysis on the way a request goes, with the equations of the
    case: [Hp] for the parameters, [Hf] and [Ht] for the two dates, [Hc]
    for the cache lookup, [Hw] for the window, [Hu'] for the provider's
    answer, [He] for its emptiness and [Hb] for the conversion. *)
Ltac history_cases params E st :=
  destruct (handle_history_outcome params E st)
    as [e' Hp
       |s' r f t e' Hp Hdate
       |s' r f t cached Hp Hf Ht Hc
       |s' r f t p' i' e' Hp Hf Ht Hc Hw Hu'
       |s' r f t p' i' hist' Hp Hf Ht Hc Hw Hu' He
       |s' r f t p' i' hist' e' Hp Hf Ht Hc Hw Hu' He Hb
       |s' r f t p' i' hist' bars Hp Hf Ht Hc Hw Hu' He Hb].

(** ** The cache key *)

Lemma append_cons x (a b : string) : String x a +:+ b = String x (a +:+ b).
Proof. reflexivity. Qed.

Lemma append_nil (b : string) : "" +:+ b = b.
Proof. reflexivity. Qed.

Lemma string_app_assoc (a b c : string) : (a +:+ b) +:+ c = a +:+ (b +:+ c).
Proof. induction a as [|x a IH]; [done|]. rewrite !append_cons. by f_equal. Qed.

Lemma occurs_app_middle c a b : occurs c (a +:+ String c b) = true.
Proof.
  induction a as [|x a IH].
  - rewrite append_nil. simpl. by rewrite bool_decide_eq_true_2.
  - rewrite append_cons. simpl. rewrite IH. apply orb_true_r.
Qed.

(** A text is cut in one way only at its last underscore. *)
Lemma split_last_underscore a a' d d' :
  a +:+ String "_" d = a' +:+ String "_" d' →
  occurs "_" d = false → occurs "_" d' = false →
  a = a' ∧ d = d'.
Proof.
  revert a'. induction a as [|x a IH]; intros [|x' a'];
    rewrite ?append_nil, ?append_cons; intros Heq Hd Hd'.
  - by simplify_eq.
  - injection Heq as <- ->.
    pose proof (occurs_app_middle "_" a' d') as Hocc. congruence.
  - injection Heq as -> <-.
    pose proof (occurs_app_middle "_" a d) as Hocc. congruence.
  - injection Heq as -> Heq. destruct (IH _ Heq Hd Hd') as [-> ->]. done.
Qed.

Lemma pretty_N_go_no_underscore x s :
  occurs "_" s = false → occurs "_" (pretty_N_go x s) = false.
Proof.
  revert s. induction (N.lt_wf_0 x) as [x _ IH]; intros s Hs.
  destruct (decide (x = 0)%N) as [->|Hx]; [by rewrite pretty_N_go_0|].
  rewrite pretty_N_go_step by lia.
  apply IH; [apply N.div_lt; lia|].
  simpl. rewrite Hs, orb_false_r.
  apply bool_decide_eq_false_2. unfold pretty_N_char. by repeat case_match.
Qed.

Lemma pretty_Z_no_underscore (z : Z) : occurs "_" (pretty z) = false.
Proof.
  assert (∀ p : positive, occurs "_" (pretty p) = false) as Hpos.
  { intros p. unfold pretty, pretty_positive, pretty, pretty_N.
    case_decide; [done|]. by apply pretty_N_go_no_underscore. }
  destruct z as [|p|p]; unfold pretty, pretty_Z; [done|apply Hpos|].
  rewrite append_cons, append_nil. simpl. apply Hpos.
Qed.

(** The interval of a request can be read back from its cache key; the
    symbol and the resolution cannot, as both may contain underscores. *)
Lemma cache_key_interval symbol resolution from_ts to_ts symbol' resolution' from_ts' to_ts' :
  cache_key symbol resolution from_ts to_ts
  = cache_key symbol' resolution' from_ts' to_ts' →
  from_ts = from_ts' ∧ to_ts = to_ts'.
Proof.
  unfold cache_key. intros Heq.
  assert (∀ s r (f t : Z),
    s +:+ "_" +:+ r +:+ "_" +:+ pretty f +:+ "_" +:+ pretty t
    = ((s +:+ String "_" r) +:+ String "_" (pretty f)) +:+ String "_" (pretty t))
    as Hassoc.
  { intros. by rewrite !string_app_assoc. }
  rewrite !Hassoc in Heq.
  apply split_last_underscore in Heq as [Heq Ht]; [|apply pretty_Z_no_underscore..].
  apply split_last_underscore in Heq as [_ Hf]; [|apply pretty_Z_no_underscore..].
  split; by apply (inj pretty).
Qed.

(** ** The state of the cache *)

Lemma cache_invariant_initial : cache_invariant initial.
Proof. intros key v. simpl. by rewrite lookup_empty. Qed.

Section Invariant.
Context {runtime : PyRuntime}.

Lemma outcome_invariant params E st r :
  outcome params E st r → cache_invariant st → cache_invariant (state_of r).
Proof.
  destruct 1 as [| | | | | |sym res from_ts to_ts period interval hist bars
                  Hp Hf Ht Hc Hw Hu He Hb]; try done.
  intros Hinv key v. unfold state_of; simpl.
  destruct (decide (cache_key sym res from_ts to_ts = key)) as [<-|Hne].
  - rewrite lookup_insert_eq. intros [= <-].
    exists (sort_bars bars). split_and!; [done|apply sort_bars_sorted|].
    intros s r f t [-> ->]%cache_key_interval.
    by apply sort_bars_within, convert_rows_within with hist.
  - rewrite lookup_insert_ne by done. apply Hinv.
Qed.

Lemma handle_history_invariant params E st :
  cache_invariant st → cache_invariant (state_of (handle_history params E st)).
Proof. apply outcome_invariant with params E, handle_history_outcome. Qed.

Lemma handle_history_returns params E st :
  result_of (handle_history params E st) = inr ().
Proof. by destruct (handle_history_outcome params E st). Qed.

(** Only the history handler writes the class attributes. *)
Lemma do_GET_history req E st :
  path req = "/history" →
  do_GET req E st = handle_history (query_params req) E st.
Proof.
  intros Hpath. unfold do_GET, try_except. rewrite Hpath. simpl.
  pose proof (handle_history_returns (query_params req) E st) as Hr.
  destruct (handle_history (query_params req) E st) as [[[e|[]] st'] tr]; done.
Qed.

(** [send_error] answers when the message can be encoded, and raises
    before anything is sent when it cannot. *)
Lemma send_error_latin1 code message st :
  latin1 message = true →
  send_error code message st = (inr (), st, [SendError code message]).
Proof. intros Hl. unfold send_error. by rewrite Hl. Qed.

Lemma send_error_not_latin1 code message st :
  latin1 message = false →
  send_error code message st = (inl (encode_error (status_line code message)), st, []).
Proof. intros Hl. unfold send_error. by rewrite Hl. Qed.

Lemma send_error_state code message st :
  state_of (send_error code message st) = st.
Proof. unfold send_error. by destruct (latin1 message). Qed.

(** The message for an unknown path can always be encoded. *)
Lemma latin1_unknown_endpoint p :
  latin1 p = true → latin1 ("Unknown endpoint: " +:+ p) = true.
Proof. intros Hp. by rewrite !append_cons, append_nil. Qed.

Lemma do_GET_unknown req E st :
  path req ∉ ["/config"; "/symbol_info"; "/symbols"; "/search"; "/history"; "/time"] →
  do_GET req E st = (inr (), st, [SendError 404 ("Unknown endpoint: " +:+ path req)]).
Proof.
  intros Hpath. unfold do_GET, try_except.
  destruct (String.eqb_spec (path req) "/config") as [Heq|_];
    [rewrite Heq in Hpath; exfalso; apply Hpath; repeat constructor|].
  destruct (String.eqb_spec (path req) "/symbol_info") as [Heq|_];
    [rewrite Heq in Hpath; exfalso; apply Hpath; repeat constructor|].
  destruct (String.eqb_spec (path req) "/symbols") as [Heq|_];
    [rewrite Heq in Hpath; exfalso; apply Hpath; repeat constructor|].
  destruct (String.eqb_spec (path req) "/search") as [Heq|_];
    [rewrite Heq in Hpath; exfalso; apply Hpath; repeat constructor|].
  destruct (String.eqb_spec (path req) "/history") as [Heq|_];
    [rewrite Heq in Hpath; exfalso; apply Hpath; repeat constructor|].
  destruct (String.eqb_spec (path req) "/time") as [Heq|_];
    [rewrite Heq in Hpath; exfalso; apply Hpath; repeat constructor|].
  by rewrite send_error_latin1 by apply latin1_unknown_endpoint, path_latin1.
Qed.

(** A search request: the list found, the error 500 with the text of what
    [int] raised, or, when that text cannot be encoded, the exception of
    the encoding, which leaves [do_GET] with nothing sent. *)
Lemma do_GET_search req E st :
  path req = "/search" →
  do_GET req E st
  = match int_param (query_params req) "limit" 10 with
    | inr limit =>
        (inr (), st,
         [Send 200 (JList (search (default "" (query_params req !! "query")) limit))])
    | inl e =>
        if latin1 (str e) then (inr (), st, [SendError 500 (str e)])
        else (inl (encode_error (status_line 500 (str e))), st, [])
    end.
Proof.
  intros Hpath. unfold do_GET, try_except. rewrite Hpath. simpl.
  unfold handle_search, bind, lift.
  destruct (int_param (query_params req) "limit" 10) as [e|limit]; [|done].
  unfold send_error. by destruct (latin1 (str e)).
Qed.

Lemma do_GET_other req E st :
  path req ≠ "/history" → state_of (do_GET req E st) = st.
Proof.
  intros Hpath.
  destruct (decide (path req = "/search")) as [Hs|Hs].
  { rewrite do_GET_search by done.
    destruct (int_param (query_params req) "limit" 10) as [e|limit]; [|done].
    by destruct (latin1 (str e)). }
  unfold do_GET, try_except.
  destruct (String.eqb_spec (path req) "/config"); [done|].
  destruct (String.eqb_spec (path req) "/symbol_info"); [done|].
  destruct (String.eqb_spec (path req) "/symbols"); [done|].
  destruct (String.eqb_spec (path req) "/search"); [done|].
  destruct (String.eqb_spec (path req) "/history"); [done|].
  destruct (String.eqb_spec (path req) "/time"); [done|].
  by rewrite send_error_latin1 by apply latin1_unknown_endpoint, path_latin1.
Qed.

Lemma reachable_invariant st : reachable st → cache_invariant st.
Proof.
  induction 1 as [|st req E _ IH]; [apply cache_invariant_initial|].
  destruct (decide (path req = "/history")) as [Hp|Hp].
  - rewrite do_GET_history by done. by apply handle_history_invariant.
  - by rewrite do_GET_other.
Qed.

End Invariant.

(** ** Reading the responses *)

Lemma times_ok_response bars : times (ok_response bars) = map time bars.
Proof.
  unfold times. simpl. induction bars as [|b bars IH]; [done|].
  simpl in *. by f_equal.
Qed.

Lemma cache_lookup_Some st key now v :
  cache_lookup st key now = Some v ↔
  data_cache st !! key = Some v ∧ (now < expiry st key)%Q.
Proof.
  unfold cache_lookup, Qltb.
  destruct (data_cache st !! key) as [cached|]; [|split; [done|by intros [? _]]].
  destruct (Qle_bool (expiry st key) now) eqn:Hle; simpl.
  - apply Qle_bool_iff in Hle. split; [done|].
    intros [_ Hlt]. by apply Qlt_not_le in Hlt.
  - split; [|by intros [? _]].
    intros Hv. split; [done|].
    apply Qnot_le_lt. intros Hle'%Qle_bool_iff. congruence.
Qed.

Lemma cache_lookup_None st key now :
  cache_lookup st key now = None ↔
  data_cache st !! key = None ∨ (expiry st key <= now)%Q.
Proof.
  unfold cache_lookup, Qltb.
  destruct (data_cache st !! key) as [cached|]; [|split; [by left|done]].
  destruct (Qle_bool (expiry st key) now) eqn:Hle; simpl.
  - apply Qle_bool_iff in Hle. split; [by right|done].
  - split; [done|]. intros [|Hle'%Qle_bool_iff]; congruence.
Qed.

Section Claims.
Context {runtime : PyRuntime}.

(** C1. Every bar of a success response to a history request stands for a
    second inside the requested interval [from_ts, to_ts], whether the
    response was fetched or served from the cache; and when the provider
    was asked, the times of the response are exactly those of the
    observations whose second falls inside the interval: every other
    observation is discarded. *)
Theorem history_bars_within_range st params E sym resolution from_ts to_ts body :
  reachable st →
  history_params params E = inr (sym, resolution, from_ts, to_ts) →
  body ∈ sent (trace_of (handle_history params E st)) →
  status body = Some "ok" →
  Forall (within from_ts to_ts) (times body)
  ∧ ∀ s p i hist,
      (s, p, i) ∈ upstream_calls (trace_of (handle_history params E st)) →
      ticker_history E s p i = inr hist →
      times body ≡ₚ
        map (λ row, second_timestamp row * 1000) (kept from_ts to_ts (rows hist)).
Proof.
  intros Hreach%reachable_invariant Hparams.
  history_cases params E st;
    unfold trace_of, sent, upstream_calls; simpl;
    rewrite Hparams in Hp; try discriminate Hp;
    injection Hp as <- <- <- <-;
    intros Hbody%list_elem_of_singleton; subst body; try done.
  - (* served from the cache: the invariant of the entry *)
    intros _. apply cache_lookup_Some in Hc as [Hc _].
    destruct (Hreach _ _ Hc) as (bars & -> & _ & Hin).
    split; [|by intros ???? ?%elem_of_nil].
    rewrite times_ok_response. by eapply Hin.
  - (* fetched: the filter of the loop *)
    intros _. rewrite times_ok_response.
    split; [by apply sort_bars_within, convert_rows_within with hist'|].
    intros s p i hist [= -> -> ->]%list_elem_of_singleton Hu.
    rewrite Hu' in Hu. injection Hu as <-.
    rewrite sort_bars_perm. by rewrite (convert_rows_times hist' from_ts to_ts).
Qed.

(** The shape of a success envelope built from sorted bars. *)
Lemma ok_response_shape bars :
  Sorted time_le bars →
  ∃ t o h l c v,
    array "t" (ok_response bars) = Some t ∧ array "o" (ok_response bars) = Some o ∧
    array "h" (ok_response bars) = Some h ∧ array "l" (ok_response bars) = Some l ∧
    array "c" (ok_response bars) = Some c ∧ array "v" (ok_response bars) = Some v ∧
    length o = length t ∧ length h = length t ∧ length l = length t ∧
    length c = length t ∧ length v = length t ∧
    t = map JInt (times (ok_response bars)) ∧
    Sorted Z.le (times (ok_response bars)).
Proof.
  intros Hsorted. do 6 eexists. simpl.
  split_and!; try reflexivity; rewrite ?length_map; try done.
  - rewrite times_ok_response. by rewrite map_map.
  - rewrite times_ok_response. by apply sorted_map_time.
Qed.

(** C2. In every success response to a history request the six arrays
    (times, opens, highs, lows, closes, volumes) have the same length, and
    the times are sorted in non-decreasing order. *)
Theorem history_arrays_aligned_sorted st params E body :
  reachable st →
  body ∈ sent (trace_of (handle_history params E st)) →
  status body = Some "ok" →
  ∃ t o h l c v,
    array "t" body = Some t ∧ array "o" body = Some o ∧
    array "h" body = Some h ∧ array "l" body = Some l ∧
    array "c" body = Some c ∧ array "v" body = Some v ∧
    length o = length t ∧ length h = length t ∧ length l = length t ∧
    length c = length t ∧ length v = length t ∧
    t = map JInt (times body) ∧
    Sorted Z.le (times body).
Proof.
  intros Hreach%reachable_invariant.
  history_cases params E st;
    unfold trace_of, sent; simpl;
    intros Hbody%list_elem_of_singleton; subst body; try done.
  - intros _. apply cache_lookup_Some in Hc as [Hc _].
    destruct (Hreach _ _ Hc) as (bars & -> & Hsorted & _).
    by apply ok_response_shape.
  - intros _. apply ok_response_shape, sort_bars_sorted.
Qed.

Lemma history_params_inr params E s r f t :
  history_params params E = inr (s, r, f, t) →
  s = default "AAPL" (params !! "symbol") ∧
  r = default "1D" (params !! "resolution") ∧
  int_param params "from" 0 = inr f ∧
  int_param params "to" (Qtruncate (time_default E)) = inr t.
Proof.
  unfold history_params, rbind.
  destruct (int_param params "from" 0) as [|f']; [done|].
  destruct (int_param params "to" _) as [|t']; [done|].
  by intros [= <- <- <- <-].
Qed.

(** The upstream calls of a request: none, or the one for its symbol and
    the window of its resolution. *)
Lemma handle_history_upstream_calls params E st call :
  call ∈ upstream_calls (trace_of (handle_history params E st)) →
  call = (default "AAPL" (params !! "symbol"),
          (select_window (default "1D" (params !! "resolution"))).1,
          (select_window (default "1D" (params !! "resolution"))).2)
  ∧ upstream_calls (trace_of (handle_history params E st)) = [call].
Proof.
  history_cases params E st;
    unfold trace_of, upstream_calls; simpl;
    try (by intros ?%elem_of_nil);
    intros ->%list_elem_of_singleton;
    apply history_params_inr in Hp as (<- & <- & _);
    by rewrite Hw.
Qed.

Lemma select_window_hourly resolution :
  resolution = "60" ∨ resolution = "240" → select_window resolution = ("60d", "1h").
Proof. by intros [-> | ->]. Qed.

Lemma select_window_intraday resolution :
  resolution ≠ "1D" → resolution ≠ "60" → resolution ≠ "240" →
  select_window resolution = ("7d", "5m").
Proof.
  intros H1 H2 H3. unfold select_window.
  destruct (String.eqb_spec resolution "1D"); [done|].
  destruct (String.eqb_spec resolution "60"); [done|].
  destruct (String.eqb_spec resolution "240"); done.
Qed.

(** Two requests for the same resolution query the provider over the same
    window, whatever else differs between them: the interval asked for,
    the symbol, the time, the state of the cache. *)
Lemma upstream_window_independent_of_range
    st1 st2 params1 params2 E1 E2 s1 p1 i1 s2 p2 i2 :
  params1 !! "resolution" = params2 !! "resolution" →
  (s1, p1, i1) ∈ upstream_calls (trace_of (handle_history params1 E1 st1)) →
  (s2, p2, i2) ∈ upstream_calls (trace_of (handle_history params2 E2 st2)) →
  p1 = p2 ∧ i1 = i2.
Proof.
  intros Hres [[= -> -> ->] _]%handle_history_upstream_calls
              [[= -> -> ->] _]%handle_history_upstream_calls.
  by rewrite Hres.
Qed.

(** C3. Whenever a history request reaches the provider, the period and the
    interval of the query are those selected by the resolution parameter
    alone (with its default 1D), whatever the from and to parameters: 1D
    gives two years of daily bars, 60 and 240 give sixty days of hourly
    bars, anything else gives seven days of five-minute bars. *)
Theorem upstream_window_by_resolution st params E s p i :
  (s, p, i) ∈ upstream_calls (trace_of (handle_history params E st)) →
  (p, i) = select_window (default "1D" (params !! "resolution"))
  ∧ (default "1D" (params !! "resolution") = "1D" → (p, i) = ("2y", "1d"))
  ∧ (default "1D" (params !! "resolution") = "60"
     ∨ default "1D" (params !! "resolution") = "240" → (p, i) = ("60d", "1h"))
  ∧ (default "1D" (params !! "resolution") ≠ "1D" →
     default "1D" (params !! "resolution") ≠ "60" →
     default "1D" (params !! "resolution") ≠ "240" → (p, i) = ("7d", "5m")).
Proof.
  intros [[= -> -> ->] _]%handle_history_upstream_calls.
  rewrite <-surjective_pairing. split_and!.
  - done.
  - by intros ->.
  - apply select_window_hourly.
  - apply select_window_intraday.
Qed.

(** C5. When the provider is asked and returns a frame without
    observations, the response is exactly the object with the single field
    s = no_data, and the class attributes are left as they were: no cache
    entry is created. *)
Theorem no_observations_no_data st params E s p i hist :
  (s, p, i) ∈ upstream_calls (trace_of (handle_history params E st)) →
  ticker_history E s p i = inr hist →
  rows hist = [] →
  trace_of (handle_history params E st)
    = [UpstreamCall s p i; Send 200 (JDict [("s", JStr "no_data")])]
  ∧ state_of (handle_history params E st) = st.
Proof.
  intros Hcall Hu Hrows.
  assert (empty hist = true) as Hempty.
  { unfold empty. rewrite Hrows. by destruct (columns hist). }
  revert Hcall.
  history_cases params E st;
    unfold trace_of, state_of, upstream_calls; simpl;
    try (by intros ?%elem_of_nil);
    intros [= -> -> ->]%list_elem_of_singleton; first [done|congruence].
Qed.

(** C4, as the code has it. When the provider, or the conversion of its
    rows, raises an exception during a history request, the request is
    answered with status 200 and the body s = error, errmsg = str(e); the
    class attributes are unchanged and no HTTP error is sent. The message
    is the text of the exception as it is: for a failed conversion it is
    never empty. *)
Theorem fetch_exception_becomes_error_response st params E sym res from_ts to_ts e :
  history_params params E = inr (sym, res, from_ts, to_ts) →
  upstream_calls (trace_of (handle_history params E st)) ≠ [] →
  fetch_exception E sym res from_ts to_ts = Some e →
  do_GET {| path := "/history"; query_params := params |} E st
    = (inr (), st,
       [UpstreamCall sym (select_window res).1 (select_window res).2;
        Send 200 (JDict [("s", JStr "error"); ("errmsg", JStr (str e))])])
  ∧ (∀ hist,
       ticker_history E sym (select_window res).1 (select_window res).2 = inr hist →
       str e ≠ "").
Proof.
  intros Hparams Hcalls Hexc. rewrite do_GET_history by done. simpl.
  revert Hcalls Hexc. unfold fetch_exception.
  history_cases params E st;
    unfold trace_of, upstream_calls; simpl; try done;
    rewrite Hparams in Hp; injection Hp as <- <- <- <-;
    rewrite Hw; simpl; rewrite Hu'; rewrite ?He, ?Hb; intros _ [= <-].
  - split; [done|]. by intros hist [=].
  - split; [done|]. intros _ _. by eapply convert_rows_inl.
Qed.

(** A request that finds its answer in the cache. *)
Lemma handle_history_hit st params E sym res from_ts to_ts cached :
  history_params params E = inr (sym, res, from_ts, to_ts) →
  fromtimestamp from_ts = inr () →
  fromtimestamp to_ts = inr () →
  cache_lookup st (cache_key sym res from_ts to_ts) (time_now E) = Some cached →
  handle_history params E st = (inr (), st, [Send 200 cached]).
Proof.
  intros Hp Hf Ht Hc.
  unfold handle_history, try_except, bind, lift. rewrite Hp.
  unfold fetch_history, bind, lift, get_state. rewrite Hf, Ht, Hc. done.
Qed.

(** C6, as the code has it. If a history request is answered with a success
    envelope, an identical request that arrives strictly before the expiry
    stored for its key is answered with the same body without asking the
    provider, so that the provider is asked at most once over the two
    requests. When the first answer was fetched from the provider, it is
    stored under the key, replacing any entry, and the expiry stored with
    it is the float sum of the clock and 300: the map then holds that
    number for the key, and a repetition is served from the cache when its
    clock is strictly before that number. *)
Theorem repeated_request_served_from_cache st params E1 E2 sym res from_ts to_ts body :
  history_params params E1 = inr (sym, res, from_ts, to_ts) →
  history_params params E2 = inr (sym, res, from_ts, to_ts) →
  sent (trace_of (handle_history params E1 st)) = [body] →
  status body = Some "ok" →
  (upstream_calls (trace_of (handle_history params E1 st)) ≠ [] →
     state_of (handle_history params E1 st)
     = {| data_cache := <[cache_key sym res from_ts to_ts := body]> (data_cache st);
          cache_expiry := <[cache_key sym res from_ts to_ts
                              := float_add (time_now E1) 300]> (cache_expiry st) |}
     ∧ data_cache (state_of (handle_history params E1 st))
         !! cache_key sym res from_ts to_ts = Some body
     ∧ cache_expiry (state_of (handle_history params E1 st))
         !! cache_key sym res from_ts to_ts = Some (float_add (time_now E1) 300)
     ∧ (Qabs (float_add (time_now E1) 300 - (time_now E1 + 300))
        <= ulp (time_now E1 + 300) * (1 # 2))%Q)
  ∧ ((time_now E2 < default 0 (cache_expiry (state_of (handle_history params E1 st))
                                 !! cache_key sym res from_ts to_ts))%Q →
     handle_history params E2 (state_of (handle_history params E1 st))
       = (inr (), state_of (handle_history params E1 st), [Send 200 body])
     ∧ (length (upstream_calls
          (trace_of (handle_history params E1 st)
           ++ trace_of (handle_history params E2 (state_of (handle_history params E1 st)))))
        ≤ 1)%nat).
Proof.
  intros Hp1 Hp2.
  history_cases params E1 st;
    unfold trace_of, state_of, sent, upstream_calls; simpl;
    intros [= <-]; try done;
    rewrite Hp1 in Hp; injection Hp as <- <- <- <-; intros _.
  - split; [done|]. intros Hlt.
    apply cache_lookup_Some in Hc as [Hc _].
    assert (cache_lookup st (cache_key sym res from_ts to_ts) (time_now E2)
            = Some cached) as Hhit by by apply cache_lookup_Some.
    rewrite (handle_history_hit st params E2 sym res from_ts to_ts cached) by done.
    split; [done|]. simpl. lia.
  - split.
    { intros _. unfold cache_store. simpl. rewrite !lookup_insert_eq.
      split_and!; [done..|apply fl_near]. }
    intros Hlt.
    assert (cache_lookup
              (cache_store st (cache_key sym res from_ts to_ts)
                 (ok_response (sort_bars bars)) (time_now E1))
              (cache_key sym res from_ts to_ts) (time_now E2)
            = Some (ok_response (sort_bars bars))) as Hhit.
    { apply cache_lookup_Some. split; [|done].
      unfold cache_store. simpl. by rewrite lookup_insert_eq. }
    rewrite (handle_history_hit _ params E2 sym res from_ts to_ts
               (ok_response (sort_bars bars))) by done.
    split; [done|]. simpl. lia.
Qed.

(** What a request does depends on the class attributes only through the
    cache lookup of its key. *)
Lemma handle_history_lookup_only params E st st' :
  (∀ sym res from_ts to_ts,
     history_params params E = inr (sym, res, from_ts, to_ts) →
     cache_lookup st (cache_key sym res from_ts to_ts) (time_now E)
     = cache_lookup st' (cache_key sym res from_ts to_ts) (time_now E)) →
  trace_of (handle_history params E st) = trace_of (handle_history params E st').
Proof.
  intros Hlookup.
  unfold handle_history, try_except, bind, lift.
  destruct (history_params params E) as [e|[[[sym res] from_ts] to_ts]] eqn:Hp; [done|].
  specialize (Hlookup _ _ _ _ eq_refl).
  unfold fetch_history, bind, lift, get_state, send_json_response, emit.
  destruct (fromtimestamp from_ts) as [e|[]]; [done|].
  destruct (fromtimestamp to_ts) as [e|[]]; [done|].
  rewrite <-Hlookup.
  destruct (cache_lookup st _ _) as [cached|]; [done|].
  destruct (select_window res) as [period interval].
  unfold bind, emit, lift.
  destruct (ticker_history E sym period interval) as [e|hist]; [done|].
  destruct (empty hist); [done|].
  unfold bind, lift, put_state.
  destruct (convert_rows hist from_ts to_ts (rows hist) []) as [e|bars]; [done|].
  destruct (latest_date (sort_bars bars)) as [e|[]]; done.
Qed.

(** A request never removes an entry of the cache. *)
Lemma handle_history_keeps_entries params E st key :
  is_Some (data_cache st !! key) →
  is_Some (data_cache (state_of (handle_history params E st)) !! key).
Proof.
  destruct (handle_history_outcome params E st); try done.
  unfold state_of, cache_store. simpl. intros Hsome.
  apply lookup_insert_is_Some'. by right.
Qed.

Lemma handle_history_keeps_expiry params E st key :
  is_Some (cache_expiry st !! key) →
  is_Some (cache_expiry (state_of (handle_history params E st)) !! key).
Proof.
  destruct (handle_history_outcome params E st); try done.
  unfold state_of, cache_store. simpl. intros Hsome.
  apply lookup_insert_is_Some'. by right.
Qed.

(** C7. For a key that has a value in [data_cache] and an instant in
    [cache_expiry], the cache lookup gives the stored value when the
    current time is strictly before the stored instant, and nothing at
    that instant or later; a key without a value gives nothing, and a key
    without an instant counts as expired at time 0. A request whose clock
    is strictly before the stored instant is answered with the stored
    value. A request whose entry has expired does what it would do if the
    entry were absent, and the entry is not removed: it stays in the map,
    as it was or replaced by the freshly fetched response. *)
Theorem cache_lookup_strictly_before_expiry st key now :
  (∀ v stored,
     data_cache st !! key = Some v →
     cache_expiry st !! key = Some stored →
     ((now < stored)%Q → cache_lookup st key now = Some v)
     ∧ ((stored <= now)%Q → cache_lookup st key now = None))
  ∧ (data_cache st !! key = None → cache_lookup st key now = None)
  ∧ (∀ v, data_cache st !! key = Some v → cache_expiry st !! key = None →
          ((now < 0)%Q → cache_lookup st key now = Some v)
          ∧ ((0 <= now)%Q → cache_lookup st key now = None))
  ∧ (∀ params E sym res from_ts to_ts v stored,
       history_params params E = inr (sym, res, from_ts, to_ts) →
       key = cache_key sym res from_ts to_ts →
       now = time_now E →
       fromtimestamp from_ts = inr () →
       fromtimestamp to_ts = inr () →
       data_cache st !! key = Some v →
       cache_expiry st !! key = Some stored →
       (now < stored)%Q →
       handle_history params E st = (inr (), st, [Send 200 v]))
  ∧ (∀ params E sym res from_ts to_ts v stored,
       history_params params E = inr (sym, res, from_ts, to_ts) →
       key = cache_key sym res from_ts to_ts →
       now = time_now E →
       data_cache st !! key = Some v →
       cache_expiry st !! key = Some stored →
       (stored <= now)%Q →
       trace_of (handle_history params E st)
       = trace_of (handle_history params E (forget key st))
       ∧ is_Some (data_cache (state_of (handle_history params E st)) !! key)
       ∧ is_Some (cache_expiry (state_of (handle_history params E st)) !! key)
       ∧ (state_of (handle_history params E st) = st
          ∨ ∃ bars, state_of (handle_history params E st)
                    = cache_store st key (ok_response bars) now)).
Proof.
  split_and!.
  - intros v stored Hv Hs. split.
    + intros Hlt. apply cache_lookup_Some. unfold expiry. by rewrite Hs.
    + intros Hle. apply cache_lookup_None. right. unfold expiry. by rewrite Hs.
  - intros Hv. apply cache_lookup_None. by left.
  - intros v Hv Hs. split.
    + intros Hlt. apply cache_lookup_Some. unfold expiry. by rewrite Hs.
    + intros Hle. apply cache_lookup_None. right. unfold expiry. by rewrite Hs.
  - intros params E sym res from_ts to_ts v stored Hp -> -> Hf Ht Hv Hs Hlt.
    apply handle_history_hit with sym res from_ts to_ts; try done.
    apply cache_lookup_Some. unfold expiry. by rewrite Hs.
  - intros params E sym res from_ts to_ts v stored Hp -> -> Hv Hs Hle.
    assert (expiry st (cache_key sym res from_ts to_ts) <= time_now E)%Q as Hle'.
    { unfold expiry. by rewrite Hs. }
    split_and!.
    + apply handle_history_lookup_only.
      intros sym' res' f' t' Hp'. rewrite Hp in Hp'. injection Hp' as <- <- <- <-.
      transitivity (@None json).
      * apply cache_lookup_None. by right.
      * symmetry. apply cache_lookup_None. left.
        unfold forget. simpl. apply lookup_delete_eq.
    + by apply handle_history_keeps_entries.
    + by apply handle_history_keeps_expiry.
    + rename Hp into Hparams.
      history_cases params E st; try (by left).
      right. rewrite Hparams in Hp. injection Hp as <- <- <- <-.
      by exists (sort_bars bars).
Qed.

(** C10. In every state the server can reach, each value of the response
    cache is a success envelope, with status ok: it is neither the no_data
    answer nor an error answer. Hence whatever a cache lookup gives is a
    success envelope. *)
Theorem cache_holds_success_only st key v :
  reachable st →
  data_cache st !! key = Some v →
  (∃ bars, v = ok_response bars)
  ∧ status v = Some "ok"
  ∧ v ≠ no_data_response
  ∧ (∀ msg, v ≠ error_response msg)
  ∧ (∀ key' now cached,
       cache_lookup st key' now = Some cached → status cached = Some "ok").
Proof.
  intros Hinv%reachable_invariant Hv.
  destruct (Hinv _ _ Hv) as (bars & -> & _). split_and!; try done.
  - by exists bars.
  - intros key' now cached [Hc _]%cache_lookup_Some.
    by destruct (Hinv _ _ Hc) as (bars' & -> & _).
Qed.

End Claims.

(** ** The fields of a bar *)





(** ** Substrings and letter case *)

Lemma prefix_spec a b : String.prefix a b = true ↔ ∃ after, b = a +:+ after.
Proof.
  revert b. induction a as [|c a IH]; intros b.
  - split; [|by destruct b]. intros _. exists b. by rewrite append_nil.
  - destruct b as [|d b]; simpl.
    { split; [done|]. intros [after Heq]. by rewrite append_cons in Heq. }
    destruct (Ascii.ascii_dec c d) as [<-|Hne].
    + rewrite IH. split; intros [after Heq]; exists after.
      * by rewrite append_cons, Heq.
      * rewrite append_cons in Heq. by injection Heq.
    + split; [done|]. intros [after Heq].
      rewrite append_cons in Heq. by injection Heq as ->.
Qed.

(** [needle in hay] holds exactly when [hay] is some text, then [needle],
    then some text. *)
Lemma contains_spec needle hay : contains needle hay = true ↔ occurs_in needle hay.
Proof.
  unfold occurs_in. induction hay as [|c hay IH].
  - change (contains needle "") with (String.prefix needle "" || false).
    rewrite orb_false_r, prefix_spec. split.
    + intros [after Heq]. exists "", after. by rewrite append_nil.
    + intros (before & after & Heq). destruct before as [|d before].
      * exists after. by rewrite append_nil in Heq.
      * by rewrite append_cons in Heq.
  - change (contains needle (String c hay))
      with (String.prefix needle (String c hay) || contains needle hay).
    rewrite orb_true_iff, prefix_spec, IH. split.
    + intros [[after Heq]|(before & after & Heq)].
      * exists "", after. by rewrite append_nil.
      * exists (String c before), after. by rewrite append_cons, Heq.
    + intros (before & after & Heq). destruct before as [|d before].
      * left. exists after. by rewrite append_nil in Heq.
      * right. rewrite append_cons in Heq. injection Heq as _ Heq.
        by exists before, after.
Qed.

Lemma N_of_ascii_small c : (Ascii.N_of_ascii c < 256)%N.
Proof. apply Ascii.N_ascii_bounded. Qed.

Lemma N_of_upper_char c :
  Ascii.N_of_ascii (upper_char c)
  = (if ((97 <=? Ascii.N_of_ascii c) && (Ascii.N_of_ascii c <=? 122))%N
     then Ascii.N_of_ascii c - 32 else Ascii.N_of_ascii c)%N.
Proof.
  unfold upper_char.
  destruct ((97 <=? Ascii.N_of_ascii c) && (Ascii.N_of_ascii c <=? 122))%N; [|done].
  apply Ascii.N_ascii_embedding. pose proof (N_of_ascii_small c). lia.
Qed.

Lemma N_of_ascii_inj c d : Ascii.N_of_ascii c = Ascii.N_of_ascii d → c = d.
Proof.
  intros Heq. rewrite <-(Ascii.ascii_N_embedding c), <-(Ascii.ascii_N_embedding d).
  by rewrite Heq.
Qed.

(** Two characters have the same upper case exactly when they are the same
    letter up to case. *)
Lemma upper_char_same_letter c d : upper_char c = upper_char d ↔ same_letter c d.
Proof.
  unfold same_letter, lower_case. split.
  - intros Heq%(f_equal Ascii.N_of_ascii). rewrite !N_of_upper_char in Heq.
    destruct (N.leb_spec 97 (Ascii.N_of_ascii c)), (N.leb_spec (Ascii.N_of_ascii c) 122),
      (N.leb_spec 97 (Ascii.N_of_ascii d)), (N.leb_spec (Ascii.N_of_ascii d) 122);
      simpl in Heq;
      first [ left; apply N_of_ascii_inj; lia | right; left; lia | right; right; lia ].
  - intros Hsame. apply N_of_ascii_inj. rewrite !N_of_upper_char.
    destruct Hsame as [->|[[Hc Heq]|[Hd Heq]]]; [done|..];
      destruct (N.leb_spec 97 (Ascii.N_of_ascii c)), (N.leb_spec (Ascii.N_of_ascii c) 122),
        (N.leb_spec 97 (Ascii.N_of_ascii d)), (N.leb_spec (Ascii.N_of_ascii d) 122);
      simpl; lia.
Qed.

Lemma upper_char_idemp c : upper_char (upper_char c) = upper_char c.
Proof. by destruct c as [[] [] [] [] [] [] [] []]. Qed.

Lemma ascii_upper_idemp s : ascii_upper (ascii_upper s) = ascii_upper s.
Proof.
  induction s as [|c s IH]; [done|].
  simpl. by rewrite upper_char_idemp, IH.
Qed.

Lemma ascii_upper_equal a b :
  ascii_upper a = ascii_upper b ↔ equal_ignoring_case a b.
Proof.
  split.
  - revert b. induction a as [|c a IH]; intros [|d b]; simpl; try done.
    + constructor.
    + intros [= Hc Hs]. constructor; [by apply upper_char_same_letter|by apply IH].
  - induction 1 as [|c d a b Hc _ IH]; [done|].
    simpl. apply upper_char_same_letter in Hc. by rewrite Hc, IH.
Qed.

Lemma ascii_upper_app a b : ascii_upper (a +:+ b) = ascii_upper a +:+ ascii_upper b.
Proof.
  induction a as [|c a IH]; [by rewrite !append_nil|].
  simpl. by rewrite !append_cons, <-IH.
Qed.

(** A text whose upper case is two texts in a row is itself two texts in a
    row, with those upper cases. *)
Lemma ascii_upper_split t a b :
  ascii_upper t = a +:+ b →
  ∃ t1 t2, t = t1 +:+ t2 ∧ ascii_upper t1 = a ∧ ascii_upper t2 = b.
Proof.
  revert t. induction a as [|c a IH]; intros t Heq.
  - exists "", t. by rewrite !append_nil in *.
  - rewrite append_cons in Heq. destruct t as [|d t]; [done|].
    simpl in Heq. injection Heq as Hc Heq.
    destruct (IH t Heq) as (t1 & t2 & -> & H1 & H2).
    exists (String d t1), t2. split_and!; [by rewrite append_cons|simpl; congruence|done].
Qed.

(** The upper case of the query is a substring of the upper case of the
    text exactly when some substring of the text is the query up to
    case. *)
Lemma occurs_in_upper query text :
  occurs_in (ascii_upper query) (ascii_upper text) ↔ contains_ignoring_case query text.
Proof.
  unfold contains_ignoring_case, occurs_in. split.
  - intros (before & after & Heq).
    apply ascii_upper_split in Heq as (t1 & t23 & -> & _ & Heq).
    apply ascii_upper_split in Heq as (t2 & t3 & -> & Hq & _).
    exists t2. split; [by apply ascii_upper_equal|by exists t1, t3].
  - intros (part & Hq%ascii_upper_equal & before & after & ->).
    exists (ascii_upper before), (ascii_upper after).
    by rewrite !ascii_upper_app, Hq.
Qed.

Lemma equal_ignoring_case_ascii a b :
  equal_ignoring_case a b → is_ascii a = true → is_ascii b = true.
Proof.
  induction 1 as [|c d a b Hc _ IH]; [done|]. simpl.
  rewrite !andb_true_iff, !N.ltb_lt. intros [Hlt Ha]. split; [|by apply IH].
  unfold same_letter, lower_case in Hc.
  destruct Hc as [->|[[_ Heq]|[Hd _]]]; lia.
Qed.

(** ** The symbol search *)

Section Search.
Context {runtime : PyRuntime}.

Lemma upper_ascii s : is_ascii s = true → upper s = ascii_upper s.
Proof. intros Hs. unfold upper. by rewrite Hs. Qed.

(** The names of the catalog are ASCII texts, and its symbol codes are in
    upper case. *)
Lemma catalog_texts s :
  s ∈ all_symbols →
  is_ascii (full_name s) = true ∧ ascii_upper (symbol s) = symbol s.
Proof.
  revert s. apply Forall_forall. unfold all_symbols.
  repeat (constructor; [by split|]). constructor.
Qed.

Lemma matches_spec query s :
  matches (upper query) s = true ↔ matches_in_upper_case query s.
Proof.
  unfold matches, matches_in_upper_case.
  by rewrite orb_true_iff, !contains_spec.
Qed.

(** For a query of ASCII characters, the test of the code is the
    case-insensitive substring match on the symbol code or the full
    name. *)
Lemma matches_ascii query s :
  is_ascii query = true → s ∈ all_symbols →
  matches_in_upper_case query s ↔ matches_ignoring_case query s.
Proof.
  intros Hq [Hname Hsym]%catalog_texts.
  unfold matches_in_upper_case, matches_ignoring_case.
  rewrite (upper_ascii query Hq), (upper_ascii (full_name s) Hname).
  rewrite <-Hsym at 1. by rewrite !occurs_in_upper.
Qed.

Lemma filtered_filter query :
  filtered (upper query) = List.filter (matches (upper query)) all_symbols.
Proof. destruct (upper query) as [|c u]; reflexivity. Qed.

Lemma elem_of_filtered query s :
  s ∈ filtered (upper query) ↔ s ∈ all_symbols ∧ matches_in_upper_case query s.
Proof.
  rewrite filtered_filter, list_elem_of_In, filter_In, <-list_elem_of_In.
  by rewrite matches_spec.
Qed.

Lemma elem_of_filtered_ascii query s :
  is_ascii query = true →
  s ∈ filtered (upper query) ↔ s ∈ all_symbols ∧ matches_ignoring_case query s.
Proof.
  intros Hq. rewrite elem_of_filtered. split; intros [Hs Hm]; (split; [done|]).
  - by apply matches_ascii.
  - by apply matches_ascii.
Qed.

Lemma bool_filter_sublist {A} (f : A → bool) (l : list A) :
  List.filter f l `sublist_of` l.
Proof.
  induction l as [|x l IH]; simpl; [constructor|].
  destruct (f x); by constructor.
Qed.

Lemma filtered_sublist query : filtered (upper query) `sublist_of` all_symbols.
Proof. rewrite filtered_filter. apply bool_filter_sublist. Qed.

Lemma slice_to_nonneg {A} (l : list A) limit :
  0 ≤ limit → slice_to l limit = take (Z.to_nat limit) l.
Proof. intros Hl. unfold slice_to. by rewrite (proj2 (Z.leb_le 0 limit)). Qed.

(** C9, as the code has it. For a limit that is not negative, the search
    returns the first [limit] of the entries found, where the entries
    found are the catalog entries, in catalog order, such that the upper
    case of the query is a substring of the symbol code or of the upper
    case of the full name. For a query of ASCII characters these are the
    entries whose symbol code or full name contains the query when case
    is ignored. An empty query keeps the whole catalog. So a search for
    AAPL with limit 10 gives the one entry AAPL, an empty query with limit
    3 gives the first three entries, and ZZZZ gives nothing; aapl in lower
    case finds AAPL, oog finds GOOGL inside its symbol code, soft finds
    MSFT inside its full name, and inc with limit 2 gives the first two of
    the five entries whose name has Inc. *)
Theorem search_in_catalog_order query limit :
  0 ≤ limit →
  (∃ found,
     search_symbols query limit = take (Z.to_nat limit) found
     ∧ found `sublist_of` all_symbols
     ∧ (∀ s, s ∈ found ↔ s ∈ all_symbols ∧ matches_in_upper_case query s)
     ∧ (is_ascii query = true →
        ∀ s, s ∈ found ↔ s ∈ all_symbols ∧ matches_ignoring_case query s))
  ∧ search query limit = map search_entry (search_symbols query limit)
  ∧ Z.of_nat (length (search query limit)) ≤ limit
  ∧ (query = "" → search_symbols query limit = take (Z.to_nat limit) all_symbols)
  ∧ map symbol (search_symbols "AAPL" 10) = ["AAPL"]
  ∧ search_symbols "" 3 = take 3 all_symbols
  ∧ search "ZZZZ" 10 = []
  ∧ map symbol (search_symbols "aapl" 10) = ["AAPL"]
  ∧ map symbol (search_symbols "oog" 10) = ["GOOGL"]
  ∧ map symbol (search_symbols "soft" 10) = ["MSFT"]
  ∧ map symbol (search_symbols "inc" 10) = ["AAPL"; "GOOGL"; "AMZN"; "TSLA"; "META"]
  ∧ map symbol (search_symbols "inc" 2) = ["AAPL"; "GOOGL"].
Proof.
  intros Hlimit.
  assert (search_symbols query limit = take (Z.to_nat limit) (filtered (upper query)))
    as Heq.
  { unfold search_symbols. by rewrite slice_to_nonneg. }
  split_and!; try done.
  - exists (filtered (upper query)). split_and!.
    + done.
    + apply filtered_sublist.
    + apply elem_of_filtered.
    + intros Hq s. by apply elem_of_filtered_ascii.
  - unfold search. rewrite length_map, Heq, length_take. lia.
  - intros ->. by rewrite Heq.
Qed.

End Search.

(** * Further properties of the handlers *)

(** ** Routing *)



Section Routing.
Context {runtime : PyRuntime}.


(** A path that is not one of the six routes is answered with the HTTP
    error 404 that names it, and nothing else happens. *)
Theorem unknown_path_not_found req E st :
  path req ∉ routes →
  do_GET req E st = (inr (), st, [SendError 404 ("Unknown endpoint: " +:+ path req)]).
Proof. apply do_GET_unknown. Qed.


(** A history request whose from or to parameter [int] refuses, or whose
    from or to is a timestamp that [datetime.fromtimestamp] refuses, is
    answered with status 200 and an error body that carries the text of
    the exception; the provider is not called and the cache is unchanged. *)
Theorem history_request_refused params E st e :
  history_params params E = inl e
  ∨ (∃ sym res from_ts to_ts,
       history_params params E = inr (sym, res, from_ts, to_ts)
       ∧ rbind (fromtimestamp from_ts) (λ _, fromtimestamp to_ts) = inl e) →
  do_GET {| path := "/history"; query_params := params |} E st
  = (inr (), st, [Send 200 (JDict [("s", JStr "error"); ("errmsg", JStr (str e))])]).
Proof.
  intros Hbad. rewrite do_GET_history by done. simpl.
  unfold handle_history, try_except, bind, lift.
  destruct Hbad as [Hp|(sym & res & from_ts & to_ts & Hp & Hdate)]; rewrite Hp; [done|].
  unfold fetch_history, bind, lift. unfold rbind in Hdate.
  destruct (fromtimestamp from_ts) as [e1|[]]; [by injection Hdate as ->|].
  by rewrite Hdate.
Qed.


End Routing.

(** ** The cache *)

Lemma cache_key_parts sym res from_ts to_ts sym' res' from_ts' to_ts' :
  cache_key sym res from_ts to_ts = cache_key sym' res' from_ts' to_ts' →
  sym +:+ String "_" res = sym' +:+ String "_" res'
  ∧ from_ts = from_ts' ∧ to_ts = to_ts'.
Proof.
  unfold cache_key. intros Heq.
  assert (∀ s r (f t : Z),
    s +:+ "_" +:+ r +:+ "_" +:+ pretty f +:+ "_" +:+ pretty t
    = ((s +:+ String "_" r) +:+ String "_" (pretty f)) +:+ String "_" (pretty t))
    as Hassoc.
  { intros. by rewrite !string_app_assoc. }
  rewrite !Hassoc in Heq.
  apply split_last_underscore in Heq as [Heq Ht]; [|apply pretty_Z_no_underscore..].
  apply split_last_underscore in Heq as [Heq Hf]; [|apply pretty_Z_no_underscore..].
  split_and!; [done|by apply (inj pretty)..].
Qed.

(** Requests whose resolutions contain no underscore, as the seven
    supported ones, have the same cache key only if they agree on the
    symbol, the resolution and the interval. *)
Theorem cache_key_injective sym res from_ts to_ts sym' res' from_ts' to_ts' :
  occurs "_" res = false →
  occurs "_" res' = false →
  cache_key sym res from_ts to_ts = cache_key sym' res' from_ts' to_ts' →
  sym = sym' ∧ res = res' ∧ from_ts = from_ts' ∧ to_ts = to_ts'.
Proof.
  intros Hres Hres' (Hsr & -> & ->)%cache_key_parts.
  apply split_last_underscore in Hsr as [-> ->]; done.
Qed.

Lemma cache_key_shift a b res from_ts to_ts :
  cache_key (a +:+ "_" +:+ b) res from_ts to_ts
  = cache_key a (b +:+ "_" +:+ res) from_ts to_ts.
Proof. unfold cache_key. by rewrite !string_app_assoc. Qed.

Section Cache.
Context {runtime : PyRuntime}.

(** A request that passes the checks and finds no fresh entry asks the
    provider once, for its symbol and the window of its resolution. *)
Lemma handle_history_miss st params E sym res from_ts to_ts :
  history_params params E = inr (sym, res, from_ts, to_ts) →
  fromtimestamp from_ts = inr () →
  fromtimestamp to_ts = inr () →
  cache_lookup st (cache_key sym res from_ts to_ts) (time_now E) = None →
  upstream_calls (trace_of (handle_history params E st))
  = [(sym, (select_window res).1, (select_window res).2)].
Proof.
  intros Hparams Hfrom Hto Hmiss.
  history_cases params E st; unfold trace_of, upstream_calls; simpl;
    rewrite Hparams in Hp; try discriminate Hp; injection Hp as <- <- <- <-.
  - unfold rbind in Hdate. rewrite Hfrom, Hto in Hdate. discriminate.
  - congruence.
  - by rewrite Hw.
  - by rewrite Hw.
  - by rewrite Hw.
  - by rewrite Hw.
Qed.

Lemma handle_history_no_call st params E :
  (∀ sym res from_ts to_ts,
     history_params params E = inr (sym, res, from_ts, to_ts) →
     rbind (fromtimestamp from_ts) (λ _, fromtimestamp to_ts) = inr () →
     cache_lookup st (cache_key sym res from_ts to_ts) (time_now E) ≠ None) →
  upstream_calls (trace_of (handle_history params E st)) = []
  ∧ state_of (handle_history params E st) = st.
Proof.
  intros Hno.
  history_cases params E st; unfold trace_of, state_of, upstream_calls; simpl; try done;
    destruct (Hno _ _ _ _ Hp); unfold rbind; by rewrite ?Hf, ?Ht.
Qed.

(** The provider is asked exactly when the parameters are read, the two
    dates are accepted and the cache has no fresh entry for the key; it is
    then asked once, for the symbol of the request and the window of its
    resolution. *)
Theorem provider_asked_on_miss_only st params E sym res from_ts to_ts :
  history_params params E = inr (sym, res, from_ts, to_ts) →
  upstream_calls (trace_of (handle_history params E st))
  = match rbind (fromtimestamp from_ts) (λ _, fromtimestamp to_ts),
          cache_lookup st (cache_key sym res from_ts to_ts) (time_now E) with
    | inr _, None => [(sym, (select_window res).1, (select_window res).2)]
    | _, _ => []
    end.
Proof.
  intros Hparams.
  destruct (rbind (fromtimestamp from_ts) (λ _, fromtimestamp to_ts)) as [e|[]] eqn:Hdate.
  - apply handle_history_no_call. intros ???? Hp' Hd'.
    rewrite Hparams in Hp'. injection Hp' as <- <- <- <-. congruence.
  - destruct (cache_lookup st _ _) as [cached|] eqn:Hc.
    + apply handle_history_no_call. intros ???? Hp' _.
      rewrite Hparams in Hp'. injection Hp' as <- <- <- <-. congruence.
    + unfold rbind in Hdate.
      destruct (fromtimestamp from_ts) as [|[]] eqn:Hf; [done|].
      by apply (handle_history_miss st params E sym res from_ts to_ts).
Qed.

(** Once 300 seconds have passed since a response was fetched and stored,
    the same request asks the provider again. *)
Theorem expired_entry_fetched_again st params E1 E2 sym res from_ts to_ts body :
  history_params params E1 = inr (sym, res, from_ts, to_ts) →
  history_params params E2 = inr (sym, res, from_ts, to_ts) →
  upstream_calls (trace_of (handle_history params E1 st)) ≠ [] →
  sent (trace_of (handle_history params E1 st)) = [body] →
  status body = Some "ok" →
  (time_now E1 + 300 <= time_now E2)%Q →
  upstream_calls
    (trace_of (handle_history params E2 (state_of (handle_history params E1 st))))
  = [(sym, (select_window res).1, (select_window res).2)].
Proof.
  intros Hp1 Hp2.
  history_cases params E1 st; unfold trace_of, state_of, sent, upstream_calls; simpl;
    try done; intros _ [= <-]; try done; intros _ Hlate.
  rewrite Hp1 in Hp. injection Hp as <- <- <- <-.
  apply (handle_history_miss _ params E2 sym res from_ts to_ts); try done.
  apply cache_lookup_None. right.
  unfold expiry, cache_store. simpl. rewrite lookup_insert_eq. simpl.
  by apply float_add_below.
Qed.

(** What a history request does to the cache. It writes only when it has
    fetched a response, which it stores under its own key together with
    the expiry, the float sum of the clock and 300; the entries of all
    other keys stay as they are. A request that does not ask the provider
    changes nothing: being served from the cache does not extend the life
    of the entry. *)
Theorem history_cache_writes st params E sym res from_ts to_ts :
  history_params params E = inr (sym, res, from_ts, to_ts) →
  (state_of (handle_history params E st) = st
   ∨ ∃ bars,
       sent (trace_of (handle_history params E st)) = [ok_response bars]
       ∧ upstream_calls (trace_of (handle_history params E st)) ≠ []
       ∧ data_cache (state_of (handle_history params E st))
         = <[cache_key sym res from_ts to_ts := ok_response bars]> (data_cache st)
       ∧ cache_expiry (state_of (handle_history params E st))
         = <[cache_key sym res from_ts to_ts := float_add (time_now E) 300]>
             (cache_expiry st)
       ∧ (time_now E + 300 - ulp (time_now E + 300) * (1 # 2)
          <= float_add (time_now E) 300
          <= time_now E + 300 + ulp (time_now E + 300) * (1 # 2))%Q)
  ∧ (upstream_calls (trace_of (handle_history params E st)) = [] →
     state_of (handle_history params E st) = st)
  ∧ (∀ key, key ≠ cache_key sym res from_ts to_ts →
       data_cache (state_of (handle_history params E st)) !! key = data_cache st !! key
       ∧ cache_expiry (state_of (handle_history params E st)) !! key
         = cache_expiry st !! key).
Proof.
  intros Hparams.
  history_cases params E st; unfold trace_of, state_of, sent, upstream_calls; simpl;
    try (split_and!; [by left|done|done]).
  rewrite Hparams in Hp. injection Hp as <- <- <- <-.
  split_and!.
  - right. exists (sort_bars bars). split_and!; try done.
    + pose proof (fl_near (time_now E + 300)) as Hnear.
      apply Qabs_Qle_condition in Hnear. unfold float_add. lra.
    + pose proof (fl_near (time_now E + 300)) as Hnear.
      apply Qabs_Qle_condition in Hnear. unfold float_add. lra.
  - done.
  - intros key Hkey. unfold cache_store. simpl.
    by rewrite !lookup_insert_ne.
Qed.

(** In a running server the two maps have the same keys: a response is in
    the cache exactly when an expiry is recorded for it. *)
Theorem cache_maps_in_step st key :
  reachable st →
  is_Some (data_cache st !! key) ↔ is_Some (cache_expiry st !! key).
Proof.
  intros Hreach. revert key.
  induction Hreach as [|st req E _ IH]; intros key.
  { simpl. by rewrite !lookup_empty. }
  destruct (decide (path req = "/history")) as [Hpath|Hpath];
    [|by rewrite do_GET_other].
  rewrite do_GET_history by done.
  history_cases (query_params req) E st; unfold state_of; simpl; try apply IH.
  unfold cache_store. simpl.
  rewrite !lookup_insert_is_Some'. by rewrite IH.
Qed.

(** For any history request, the answer is one JSON body with status 200,
    sent after the call upstream if there is one, and in a running server
    the body has one of three shapes: the success envelope, the no_data
    object, or the error object. *)
Theorem history_answer_shapes st params E :
  reachable st →
  ∃ body,
    sent (trace_of (handle_history params E st)) = [body]
    ∧ (∀ code message, SendError code message ∉ trace_of (handle_history params E st))
    ∧ ((∃ bars, body = ok_response bars)
       ∨ body = no_data_response
       ∨ ∃ errmsg, body = error_response errmsg).
Proof.
  intros Hinv%reachable_invariant.
  history_cases params E st; unfold trace_of, sent; simpl; eexists; (split; [done|]);
    (split; [intros code message Hin;
             repeat (apply elem_of_cons in Hin as [Hin|Hin]; [discriminate|]);
             by apply elem_of_nil in Hin|]).
  1,2,4,6: by right; right; eexists.
  - apply cache_lookup_Some in Hc as [Hc _].
    destruct (Hinv _ _ Hc) as (bars & -> & _). left. by exists bars.
  - by right; left.
  - left. by eexists.
Qed.

(** The cache key does not tell where the symbol ends and the resolution
    begins. So a response fetched for the symbol a_b at resolution r is
    served, while it is fresh, to a request for the symbol a at resolution
    b_r over the same interval, without asking the provider. Fresh means
    that the clock is strictly before the stored expiry, the float sum of
    the clock of the fetch and 300. *)
Theorem colliding_key_served st params1 params2 E1 E2 a b res from_ts to_ts body :
  history_params params1 E1 = inr (a +:+ "_" +:+ b, res, from_ts, to_ts) →
  history_params params2 E2 = inr (a, b +:+ "_" +:+ res, from_ts, to_ts) →
  upstream_calls (trace_of (handle_history params1 E1 st)) ≠ [] →
  sent (trace_of (handle_history params1 E1 st)) = [body] →
  status body = Some "ok" →
  (time_now E2 < float_add (time_now E1) 300)%Q →
  cache_expiry (state_of (handle_history params1 E1 st))
    !! cache_key a (b +:+ "_" +:+ res) from_ts to_ts
  = Some (float_add (time_now E1) 300)
  ∧ handle_history params2 E2 (state_of (handle_history params1 E1 st))
    = (inr (), state_of (handle_history params1 E1 st), [Send 200 body]).
Proof.
  intros Hp1 Hp2.
  history_cases params1 E1 st; unfold trace_of, state_of, sent, upstream_calls; simpl;
    try done; intros _ [= <-]; try done; intros _ Hfresh.
  rewrite Hp1 in Hp. injection Hp as <- <- <- <-.
  rewrite <-cache_key_shift. split.
  { unfold cache_store. simpl. by rewrite lookup_insert_eq. }
  apply (handle_history_hit _ params2 E2 a (b +:+ "_" +:+ res) from_ts to_ts); try done.
  rewrite <-cache_key_shift. apply cache_lookup_Some.
  unfold expiry, cache_store. simpl. by rewrite !lookup_insert_eq.
Qed.

(** Without a to parameter the end of the interval is the clock cut to
    whole seconds, and it is part of the cache key: two such requests made
    in different seconds never share a cache entry. *)
Theorem default_to_changes_key params E1 E2 sym1 res1 from1 to1 sym2 res2 from2 to2 :
  params !! "to" = None →
  history_params params E1 = inr (sym1, res1, from1, to1) →
  history_params params E2 = inr (sym2, res2, from2, to2) →
  Qtruncate (time_default E1) ≠ Qtruncate (time_default E2) →
  to1 = Qtruncate (time_default E1)
  ∧ to2 = Qtruncate (time_default E2)
  ∧ cache_key sym1 res1 from1 to1 ≠ cache_key sym2 res2 from2 to2.
Proof.
  intros Hto (_ & _ & _ & Ht1)%history_params_inr (_ & _ & _ & Ht2)%history_params_inr Hne.
  unfold int_param in Ht1, Ht2. rewrite Hto in Ht1, Ht2.
  injection Ht1 as <-. injection Ht2 as <-.
  split_and!; [done|done|].
  by intros [_ ?]%cache_key_interval.
Qed.

End Cache.

(** ** Converting the frame *)

Lemma rows_out_of_range_not_read_aux hist from_ts to_ts rs acc :
  convert_rows hist from_ts to_ts rs acc
  = convert_rows hist from_ts to_ts (kept from_ts to_ts rs) acc.
Proof.
  revert acc. induction rs as [|row rs IH]; intros acc; [done|].
  unfold kept. cbn [convert_rows List.filter].
  destruct (in_range from_ts to_ts (second_timestamp row)) eqn:Hin; [|apply IH].
  cbn [convert_rows]. rewrite Hin. unfold rbind.
  destruct (make_bar hist (second_timestamp row) row); [done|]. apply IH.
Qed.

(** The loop reads only the rows in range: two frames with the same
    columns and the same rows in range are converted alike, whatever the
    other rows hold. *)
Theorem rows_out_of_range_not_read hist1 hist2 from_ts to_ts :
  columns hist1 = columns hist2 →
  kept from_ts to_ts (rows hist1) = kept from_ts to_ts (rows hist2) →
  convert_rows hist1 from_ts to_ts (rows hist1) []
  = convert_rows hist2 from_ts to_ts (rows hist2) [].
Proof.
  intros Hcols Hkept.
  rewrite (rows_out_of_range_not_read_aux hist1), (rows_out_of_range_not_read_aux hist2).
  rewrite Hkept. generalize (kept from_ts to_ts (rows hist2)) (@nil bar).
  intros rs. induction rs as [|row rs IH]; intros acc; [done|].
  cbn [convert_rows].
  assert (make_bar hist1 (second_timestamp row) row
          = make_bar hist2 (second_timestamp row) row) as ->.
  { unfold make_bar, volume_of, getitem. by rewrite Hcols. }
  destruct (in_range from_ts to_ts (second_timestamp row)); [|apply IH].
  unfold rbind. destruct (make_bar hist2 _ row); [done|]. apply IH.
Qed.

Lemma make_bar_convertible hist timestamp row :
  (∃ b, make_bar hist timestamp row = inr b) ↔ convertible hist row.
Proof.
  unfold convertible, make_bar, rbind, getitem. rewrite volume_of_eq.
  destruct (decide ("Open" ∈ columns hist)) as [Ho|Ho];
    [rewrite (bool_decide_eq_true_2 _ Ho)|rewrite (bool_decide_eq_false_2 _ Ho)];
    [|split; [by intros [? ?]|by intros [? _]]].
  destruct (decide ("High" ∈ columns hist)) as [Hh|Hh];
    [rewrite (bool_decide_eq_true_2 _ Hh)|rewrite (bool_decide_eq_false_2 _ Hh)];
    [|split; [by intros [? ?]|by intros (_ & ? & _)]].
  destruct (decide ("Low" ∈ columns hist)) as [Hl|Hl];
    [rewrite (bool_decide_eq_true_2 _ Hl)|rewrite (bool_decide_eq_false_2 _ Hl)];
    [|split; [by intros [? ?]|by intros (_ & _ & ? & _)]].
  destruct (decide ("Close" ∈ columns hist)) as [Hc|Hc];
    [rewrite (bool_decide_eq_true_2 _ Hc)|rewrite (bool_decide_eq_false_2 _ Hc)];
    [|split; [by intros [? ?]|by intros (_ & _ & _ & ? & _)]].
  destruct (decide ("Volume" ∈ columns hist)) as [Hv|Hv];
    [rewrite (bool_decide_eq_true_2 _ Hv)|rewrite (bool_decide_eq_false_2 _ Hv)];
    [|split; [done|by eexists]].
  destruct (cells row "Volume") as [q|negative|]; simpl.
  - split; [done|by eexists].
  - split; [by intros [? ?]|]. intros (_ & _ & _ & _ & Hinf). by destruct (Hinf Hv negative).
  - split; [done|by eexists].
Qed.

Lemma convert_rows_convertible hist from_ts to_ts rs acc :
  (∃ bars, convert_rows hist from_ts to_ts rs acc = inr bars)
  ↔ Forall (convertible hist) (kept from_ts to_ts rs).
Proof.
  revert acc. induction rs as [|row rs IH]; intros acc.
  { split; [constructor|by eexists]. }
  unfold kept. cbn [convert_rows List.filter].
  destruct (in_range from_ts to_ts (second_timestamp row)); [|apply IH].
  rewrite Forall_cons, <-(make_bar_convertible hist (second_timestamp row)).
  unfold rbind.
  destruct (make_bar hist (second_timestamp row) row) as [e|b].
  - split; [by intros [? ?]|by intros [[? ?] _]].
  - rewrite IH. split; [by eauto|by intros [_ ?]].
Qed.

(** The frame is converted exactly when every row in range has the four
    price columns and a volume that is not infinite. One row in range that
    fails makes the whole conversion fail; a row out of range never does. *)
Theorem conversion_succeeds_iff hist from_ts to_ts :
  (∃ bars, convert_rows hist from_ts to_ts (rows hist) [] = inr bars)
  ↔ Forall (convertible hist) (kept from_ts to_ts (rows hist)).
Proof. apply convert_rows_convertible. Qed.

Lemma insert_bar_first b l :
  HdRel time_le b l → insert_bar b l = b :: l.
Proof.
  destruct 1 as [|x l Hle]; [done|].
  simpl. by rewrite (proj2 (Z.leb_le _ _) Hle).
Qed.

Lemma sort_bars_ordered l : Sorted time_le l → sort_bars l = l.
Proof.
  induction 1 as [|b l _ IH Hhd]; [done|].
  simpl. rewrite IH. by apply insert_bar_first.
Qed.

Lemma sorted_time_le l : Sorted Z.le (map time l) → Sorted time_le l.
Proof.
  induction l as [|b l IH]; [constructor|].
  simpl. inversion 1 as [|? ? Hs Hhd]; subst.
  constructor; [by apply IH|].
  destruct l; simpl in *; constructor. by inversion Hhd.
Qed.

Lemma sorted_milliseconds (rs : list Row) :
  Sorted Z.le (map second_timestamp rs) →
  Sorted Z.le (map (λ row, second_timestamp row * 1000) rs).
Proof.
  induction rs as [|row rs IH]; [constructor|].
  simpl. inversion 1 as [|? ? Hs Hhd]; subst.
  constructor; [by apply IH|].
  destruct rs; simpl in *; constructor. inversion Hhd; subst. lia.
Qed.

Lemma kept_nothing from_ts to_ts (rs : list Row) :
  (∀ row, row ∈ rs → ¬ from_ts ≤ second_timestamp row ≤ to_ts) →
  kept from_ts to_ts rs = [].
Proof.
  induction rs as [|row rs IH]; intros Hout; [done|].
  unfold kept. cbn [List.filter].
  destruct (in_range from_ts to_ts (second_timestamp row)) eqn:Hin.
  - apply in_range_spec in Hin. destruct (Hout row); [left|done].
  - apply IH. intros row' Hrow'. apply Hout. by right.
Qed.

Section Fetch.
Context {runtime : PyRuntime}.

(** What a request that asks the provider has in hand. *)
Lemma fetched_response st params E sym res from_ts to_ts s p i hist body :
  history_params params E = inr (sym, res, from_ts, to_ts) →
  (s, p, i) ∈ upstream_calls (trace_of (handle_history params E st)) →
  ticker_history E s p i = inr hist →
  body ∈ sent (trace_of (handle_history params E st)) →
  status body = Some "ok" →
  ∃ converted,
    convert_rows hist from_ts to_ts (rows hist) [] = inr converted
    ∧ handle_history params E st
      = (inr (),
         cache_store st (cache_key sym res from_ts to_ts)
           (ok_response (sort_bars converted)) (time_now E),
         [UpstreamCall s p i; Send 200 (ok_response (sort_bars converted))])
    ∧ body = ok_response (sort_bars converted).
Proof.
  intros Hparams.
  history_cases params E st; unfold trace_of, sent, upstream_calls; simpl;
    try (by intros ?%elem_of_nil);
    intros [= -> -> ->]%list_elem_of_singleton Hu ->%list_elem_of_singleton;
    try done; intros _.
  rewrite Hparams in Hp. injection Hp as <- <- <- <-.
  rewrite Hu' in Hu. injection Hu as <-. by exists bars.
Qed.


(** When the observations in range come in time order, as a provider
    gives them, the response lists them in that order: the sort moves
    nothing. *)
Theorem ordered_observations_keep_order
    st params E sym res from_ts to_ts s p i hist body :
  history_params params E = inr (sym, res, from_ts, to_ts) →
  (s, p, i) ∈ upstream_calls (trace_of (handle_history params E st)) →
  ticker_history E s p i = inr hist →
  body ∈ sent (trace_of (handle_history params E st)) →
  status body = Some "ok" →
  Sorted Z.le (map second_timestamp (kept from_ts to_ts (rows hist))) →
  times body
  = map (λ row, second_timestamp row * 1000) (kept from_ts to_ts (rows hist))
  ∧ ∃ converted,
      convert_rows hist from_ts to_ts (rows hist) [] = inr converted
      ∧ body = ok_response converted.
Proof.
  intros Hparams Hcall Hu Hbody Hok Hsorted.
  destruct (fetched_response _ _ _ _ _ _ _ _ _ _ _ _ Hparams Hcall Hu Hbody Hok)
    as (converted & Hconv & _ & ->).
  assert (sort_bars converted = converted) as ->.
  { apply sort_bars_ordered, sorted_time_le.
    rewrite (convert_rows_times hist from_ts to_ts) by done.
    by apply sorted_milliseconds. }
  split; [|by exists converted].
  rewrite times_ok_response. by apply convert_rows_times.
Qed.

(** When the provider has observations but none in the requested interval
    (always so when to is before from), the answer is a success envelope
    with six empty arrays, not no_data, and it is cached like any other
    success, whatever the columns of the frame. *)
Theorem nothing_in_range_is_empty_success
    st params E sym res from_ts to_ts s p i hist :
  history_params params E = inr (sym, res, from_ts, to_ts) →
  (s, p, i) ∈ upstream_calls (trace_of (handle_history params E st)) →
  ticker_history E s p i = inr hist →
  empty hist = false →
  (∀ row, row ∈ rows hist → ¬ from_ts ≤ second_timestamp row ≤ to_ts) →
  trace_of (handle_history params E st)
    = [UpstreamCall s p i;
       Send 200 (JDict [("s", JStr "ok"); ("t", JList []); ("o", JList []);
                        ("h", JList []); ("l", JList []); ("c", JList []);
                        ("v", JList [])])]
  ∧ state_of (handle_history params E st)
    = cache_store st (cache_key sym res from_ts to_ts) (ok_response []) (time_now E).
Proof.
  intros Hparams Hcall Hu Hfull Hout.
  assert (convert_rows hist from_ts to_ts (rows hist) [] = inr []) as Hconv.
  { by rewrite rows_out_of_range_not_read_aux, kept_nothing. }
  revert Hcall.
  history_cases params E st; unfold trace_of, state_of, upstream_calls; simpl;
    try (by intros ?%elem_of_nil);
    intros [= -> -> ->]%list_elem_of_singleton;
    rewrite Hparams in Hp; injection Hp as <- <- <- <-;
    rewrite Hu' in Hu; try discriminate Hu; injection Hu as <-;
    try congruence.
  rewrite Hconv in Hb. by injection Hb as <-.
Qed.

End Fetch.

(** ** Searching the catalog *)

Lemma slice_to_take {A} (l : list A) limit : ∃ n, slice_to l limit = take n l.
Proof. unfold slice_to. destruct (0 <=? limit); by eexists. Qed.

Section Catalog.
Context {runtime : PyRuntime}.

Lemma search_symbols_sublist query limit :
  search_symbols query limit `sublist_of` filtered (upper query).
Proof.
  unfold search_symbols.
  destruct (slice_to_take (filtered (upper query)) limit) as [n ->].
  apply sublist_take.
Qed.

(** Whatever the query and the limit, negative limits included, the search
    returns entries of the catalog, each at most once and in the order of
    the catalog, and every one of them matches the query: the upper case
    of the query is a substring of its symbol code or of the upper case of
    its full name. For a query of ASCII characters, its symbol code or its
    full name contains the query when case is ignored. *)
Theorem search_results_from_catalog query limit :
  search_symbols query limit `sublist_of` all_symbols
  ∧ NoDup (search_symbols query limit)
  ∧ (∀ s, s ∈ search_symbols query limit →
          occurs_in (upper query) (symbol s)
          ∨ occurs_in (upper query) (upper (full_name s)))
  ∧ (is_ascii query = true →
     ∀ s, s ∈ search_symbols query limit →
          (∃ part, equal_ignoring_case part query ∧ occurs_in part (symbol s))
          ∨ (∃ part, equal_ignoring_case part query ∧ occurs_in part (full_name s))).
Proof.
  assert (search_symbols query limit `sublist_of` all_symbols) as Hsub.
  { etrans; [apply search_symbols_sublist|apply filtered_sublist]. }
  split_and!.
  - done.
  - eapply sublist_NoDup; [|exact Hsub].
    apply (NoDup_fmap_1 symbol). compute_done.
  - intros s Hs. eapply elem_of_sublist in Hs; [|apply search_symbols_sublist].
    by apply elem_of_filtered in Hs as [_ Hm].
  - intros Hq s Hs. eapply elem_of_sublist in Hs; [|apply search_symbols_sublist].
    by apply elem_of_filtered_ascii in Hs as [_ Hm].
Qed.

(** With a limit of at least the size of the catalog, the search returns
    every entry that matches: the entries of the catalog such that the
    upper case of the query is a substring of the symbol code or of the
    upper case of the full name, which for a query of ASCII characters are
    the entries whose symbol code or full name contains the query when
    case is ignored. *)
Theorem search_complete query limit :
  Z.of_nat (length all_symbols) ≤ limit →
  (∀ s, s ∈ search_symbols query limit
        ↔ s ∈ all_symbols
          ∧ (occurs_in (upper query) (symbol s)
             ∨ occurs_in (upper query) (upper (full_name s))))
  ∧ (is_ascii query = true →
     ∀ s, s ∈ search_symbols query limit
          ↔ s ∈ all_symbols
            ∧ ((∃ part, equal_ignoring_case part query ∧ occurs_in part (symbol s))
               ∨ (∃ part, equal_ignoring_case part query
                          ∧ occurs_in part (full_name s)))).
Proof.
  intros Hlimit.
  assert (search_symbols query limit = filtered (upper query)) as ->.
  { unfold search_symbols. rewrite slice_to_nonneg by lia.
    apply take_ge.
    pose proof (sublist_length _ _ (filtered_sublist query)). lia. }
  split.
  - intros s. apply elem_of_filtered.
  - intros Hq s. by apply elem_of_filtered_ascii.
Qed.

(** The case of the letters of the query does not matter: two queries of
    ASCII characters that are equal when case is ignored get the same
    results, and so do a query and its upper case. *)
Theorem search_ignores_case query1 query2 limit :
  is_ascii query1 = true →
  equal_ignoring_case query1 query2 →
  search query1 limit = search query2 limit
  ∧ search (upper query1) limit = search query1 limit.
Proof.
  intros H1 Heq.
  pose proof (equal_ignoring_case_ascii _ _ Heq H1) as H2.
  unfold search, search_symbols. split.
  - rewrite (upper_ascii query1 H1), (upper_ascii query2 H2).
    apply ascii_upper_equal in Heq. by rewrite Heq.
  - assert (is_ascii (ascii_upper query1) = true) as Hu.
    { apply (equal_ignoring_case_ascii query1); [|done].
      apply ascii_upper_equal. symmetry. apply ascii_upper_idemp. }
    rewrite (upper_ascii query1 H1), (upper_ascii _ Hu).
    by rewrite ascii_upper_idemp.
Qed.

(** A smaller limit gives the beginning of what a larger one gives. *)
Theorem search_limit_prefix query limit1 limit2 :
  0 ≤ limit1 ≤ limit2 →
  search query limit1 = take (Z.to_nat limit1) (search query limit2).
Proof.
  intros [H1 H2]. unfold search, search_symbols.
  rewrite !slice_to_nonneg by lia.
  rewrite <-fmap_take, take_take. do 2 f_equal. lia.
Qed.

End Catalog.

(** The symbol listing and the search are written from two copies of the
    catalog, and they agree: whatever a search returns is in the listing
    of [/symbol_info], with the same name, description, exchange and type. *)
Theorem search_results_listed {runtime : PyRuntime} query limit s params st :
  s ∈ search_symbols query limit →
  ∃ listing,
    trace_of (handle_symbol_info params st) = [Send 200 (JDict [("symbols", JList listing)])]
    ∧ info_entry s ∈ listing.
Proof.
  intros Hs. eexists. split; [reflexivity|].
  apply (list_elem_of_fmap_2 info_entry).
  change popular_symbols with all_symbols.
  eapply elem_of_sublist; [exact Hs|].
  etrans; [apply search_symbols_sublist|apply filtered_sublist].
Qed.

(** ** The cache over the life of the server *)

Section Life.
Context {runtime : PyRuntime}.

(** Only the history endpoint works with the cache and the provider: a
    request to any other path leaves the cache as it is and makes no call
    upstream. *)
Theorem other_routes_leave_cache req E st :
  path req ≠ "/history" →
  state_of (do_GET req E st) = st
  ∧ upstream_calls (trace_of (do_GET req E st)) = [].
Proof.
  intros Hpath. split; [by apply do_GET_other|].
  destruct (decide (path req = "/search")) as [Hs|Hs].
  { rewrite do_GET_search by done.
    destruct (int_param (query_params req) "limit" 10) as [e|limit]; [|done].
    by destruct (latin1 (str e)). }
  unfold do_GET, try_except.
  destruct (String.eqb_spec (path req) "/config"); [done|].
  destruct (String.eqb_spec (path req) "/symbol_info"); [done|].
  destruct (String.eqb_spec (path req) "/symbols"); [done|].
  destruct (String.eqb_spec (path req) "/search"); [done|].
  destruct (String.eqb_spec (path req) "/history"); [done|].
  destruct (String.eqb_spec (path req) "/time"); [done|].
  by rewrite send_error_latin1 by apply latin1_unknown_endpoint, path_latin1.
Qed.

Lemma do_GET_cache_grows req E st :
  (∀ key, is_Some (data_cache st !! key) →
          is_Some (data_cache (state_of (do_GET req E st)) !! key))
  ∧ (size (data_cache st) ≤ size (data_cache (state_of (do_GET req E st)))
      ≤ S (size (data_cache st)))%nat.
Proof.
  destruct (decide (path req = "/history")) as [Hpath|Hpath].
  - rewrite do_GET_history by done. split.
    + intros key. apply handle_history_keeps_entries.
    + history_cases (query_params req) E st; unfold state_of; simpl; try lia.
      unfold cache_store. simpl.
      destruct (data_cache st !! cache_key s' r f t) eqn:Hold.
      * rewrite map_size_insert_Some by eauto. lia.
      * rewrite map_size_insert_None by done. lia.
  - rewrite do_GET_other by done. split; [done|lia].
Qed.

(** Nothing is ever removed from the cache: whatever requests follow, a
    key that has an entry keeps one, expired or not, and each request adds
    at most one entry. *)
Theorem cache_entries_never_removed requests st key :
  is_Some (data_cache st !! key) →
  is_Some (data_cache (serve requests st) !! key)
  ∧ (size (data_cache st) ≤ size (data_cache (serve requests st))
      ≤ size (data_cache st) + length requests)%nat.
Proof.
  revert st. induction requests as [|[req E] requests IH]; intros st Hkey.
  { simpl. split; [done|lia]. }
  destruct (do_GET_cache_grows req E st) as [Hkeep Hsize].
  destruct (IH _ (Hkeep _ Hkey)) as [Hsome Hbound].
  cbn [serve length]. split; [done|lia].
Qed.

End Life.

(** ** The theorems at work on the sample inputs *)

#[local] Existing Instance linux_runtime.

Lemma reachable_warm : reachable warm.
Proof. apply (reachable_request initial sample_request sample_env), reachable_initial. Qed.

(** The sample request, fetched: both bars lie between seconds 50 and 300,
    and the observation of second 999 is not among them. *)
Lemma history_bars_within_range_sample :
  Forall (within 50 300) (times sample_body)
  ∧ ∀ s p i hist,
      (s, p, i) ∈ upstream_calls (trace_of (handle_history sample_params sample_env initial)) →
      ticker_history sample_env s p i = inr hist →
      times sample_body ≡ₚ
        map (λ row, second_timestamp row * 1000) (kept 50 300 (rows hist)).
Proof.
  apply (history_bars_within_range initial sample_params sample_env "MSFT" "60" 50 300).
  - apply reachable_initial.
  - vm_compute. reflexivity.
  - vm_compute. left.
  - reflexivity.
Defined.

(** The sample request again at time 1100, when the provider is down: the
    cached body is served, with its arrays aligned and its times sorted. *)
Lemma history_arrays_aligned_sorted_sample :
  ∃ t o h l c v,
    array "t" sample_body = Some t ∧ array "o" sample_body = Some o ∧
    array "h" sample_body = Some h ∧ array "l" sample_body = Some l ∧
    array "c" sample_body = Some c ∧ array "v" sample_body = Some v ∧
    length o = length t ∧ length h = length t ∧ length l = length t ∧
    length c = length t ∧ length v = length t ∧
    t = map JInt (times sample_body) ∧
    Sorted Z.le (times sample_body).
Proof.
  apply (history_arrays_aligned_sorted warm sample_params later_env).
  - apply reachable_warm.
  - vm_compute. left.
  - reflexivity.
Defined.

(** Resolution 60 asks the provider for sixty days of hourly bars. *)
Lemma upstream_window_by_resolution_sample :
  ("60d", "1h") = select_window (default "1D" (sample_params !! "resolution"))
  ∧ (default "1D" (sample_params !! "resolution") = "1D" →
     ("60d", "1h") = ("2y", "1d"))
  ∧ (default "1D" (sample_params !! "resolution") = "60"
     ∨ default "1D" (sample_params !! "resolution") = "240" →
     ("60d", "1h") = ("60d", "1h"))
  ∧ (default "1D" (sample_params !! "resolution") ≠ "1D" →
     default "1D" (sample_params !! "resolution") ≠ "60" →
     default "1D" (sample_params !! "resolution") ≠ "240" →
     ("60d", "1h") = ("7d", "5m")).
Proof.
  apply (upstream_window_by_resolution initial sample_params sample_env "MSFT").
  vm_compute. left.
Defined.

(** A frame without its Close column: the KeyError is reported in a 200. *)
Lemma fetch_exception_becomes_error_response_sample :
  do_GET sample_request broken_env initial
    = (inr (), initial,
       [UpstreamCall "MSFT" "60d" "1h";
        Send 200 (JDict [("s", JStr "error"); ("errmsg", JStr "'Close'")])])
  ∧ (∀ hist, ticker_history broken_env "MSFT" "60d" "1h" = inr hist →
             str (KeyError "Close") ≠ "").
Proof.
  apply (fetch_exception_becomes_error_response initial sample_params broken_env
           "MSFT" "60" 50 300 (KeyError "Close")).
  - vm_compute. reflexivity.
  - vm_compute. discriminate.
  - vm_compute. reflexivity.
Defined.

(** A provider without observations. *)
Lemma no_observations_no_data_sample :
  trace_of (handle_history sample_params no_data_env initial)
    = [UpstreamCall "MSFT" "60d" "1h"; Send 200 (JDict [("s", JStr "no_data")])]
  ∧ state_of (handle_history sample_params no_data_env initial) = initial.
Proof.
  apply (no_observations_no_data initial sample_params no_data_env
           "MSFT" "60d" "1h" {| columns := ohlcv; rows := [] |}).
  - vm_compute. left.
  - reflexivity.
  - reflexivity.
Defined.

(** The sample request at time 1000 and again at time 1100: the entry is
    stored with the expiry 1300, and the second request is served from
    it. *)
Lemma repeated_request_served_from_cache_sample :
  (upstream_calls (trace_of (handle_history sample_params sample_env initial)) ≠ [] →
     state_of (handle_history sample_params sample_env initial)
     = {| data_cache := <[cache_key "MSFT" "60" 50 300 := sample_body]> (data_cache initial);
          cache_expiry := <[cache_key "MSFT" "60" 50 300 := 1300%Q]> (cache_expiry initial) |}
     ∧ data_cache (state_of (handle_history sample_params sample_env initial))
         !! cache_key "MSFT" "60" 50 300 = Some sample_body
     ∧ cache_expiry (state_of (handle_history sample_params sample_env initial))
         !! cache_key "MSFT" "60" 50 300 = Some 1300%Q
     ∧ (Qabs (float_add (time_now sample_env) 300 - (time_now sample_env + 300))
        <= ulp (time_now sample_env + 300) * (1 # 2))%Q)
  ∧ ((time_now later_env
      < default 0 (cache_expiry (state_of (handle_history sample_params sample_env initial))
                     !! cache_key "MSFT" "60" 50 300))%Q →
     handle_history sample_params later_env
         (state_of (handle_history sample_params sample_env initial))
       = (inr (), state_of (handle_history sample_params sample_env initial),
          [Send 200 sample_body])
     ∧ (length (upstream_calls
          (trace_of (handle_history sample_params sample_env initial)
           ++ trace_of (handle_history sample_params later_env
                          (state_of (handle_history sample_params sample_env initial)))))
        ≤ 1)%nat).
Proof.
  apply (repeated_request_served_from_cache initial sample_params sample_env later_env
           "MSFT" "60" 50 300 sample_body).
  - vm_compute. reflexivity.
  - vm_compute. reflexivity.
  - vm_compute. reflexivity.
  - reflexivity.
Defined.

(** The entry stored at time 1000 holds the expiry 1300. At time 1100 the
    lookup gives the stored body and the request is served from it. At
    time 1300 the entry has expired: the lookup gives nothing and the
    request goes the way it would without the entry, which is still in the
    map afterwards. *)
Lemma cache_lookup_strictly_before_expiry_sample :
  data_cache warm !! cache_key "MSFT" "60" 50 300 = Some sample_body
  ∧ cache_expiry warm !! cache_key "MSFT" "60" 50 300 = Some 1300%Q
  ∧ cache_lookup warm (cache_key "MSFT" "60" 50 300) 1100 = Some sample_body
  ∧ handle_history sample_params later_env warm = (inr (), warm, [Send 200 sample_body])
  ∧ cache_lookup warm (cache_key "MSFT" "60" 50 300) 1300 = None
  ∧ trace_of (handle_history sample_params expired_env warm)
    = trace_of (handle_history sample_params expired_env
                  (forget (cache_key "MSFT" "60" 50 300) warm))
  ∧ is_Some (data_cache (state_of (handle_history sample_params expired_env warm))
               !! cache_key "MSFT" "60" 50 300).
Proof.
  assert (data_cache warm !! cache_key "MSFT" "60" 50 300 = Some sample_body) as Hv.
  { vm_compute. reflexivity. }
  assert (cache_expiry warm !! cache_key "MSFT" "60" 50 300 = Some 1300%Q) as Hs.
  { vm_compute. reflexivity. }
  destruct (cache_lookup_strictly_before_expiry warm (cache_key "MSFT" "60" 50 300) 1100)
    as (Hfresh & _ & _ & Hserved & _).
  destruct (cache_lookup_strictly_before_expiry warm (cache_key "MSFT" "60" 50 300) 1300)
    as (Hstale & _ & _ & _ & Hexpired).
  destruct (Hexpired sample_params expired_env "MSFT" "60" 50 300 sample_body 1300%Q)
    as (Htrace & Hstays & _).
  { vm_compute. reflexivity. }
  { reflexivity. }
  { reflexivity. }
  { exact Hv. }
  { exact Hs. }
  { vm_compute. discriminate. }
  split_and!.
  - exact Hv.
  - exact Hs.
  - apply (Hfresh sample_body 1300%Q Hv Hs). reflexivity.
  - apply (Hserved sample_params later_env "MSFT" "60" 50 300 sample_body 1300%Q).
    + vm_compute. reflexivity.
    + reflexivity.
    + reflexivity.
    + reflexivity.
    + reflexivity.
    + exact Hv.
    + exact Hs.
    + reflexivity.
  - apply (Hstale sample_body 1300%Q Hv Hs). vm_compute. discriminate.
  - exact Htrace.
  - exact Hstays.
Defined.


(** Five names contain Inc; a search for inc with limit 2 returns the first
    two of them. *)
Lemma search_in_catalog_order_sample :
  (∃ found,
     search_symbols "inc" 2 = take (Z.to_nat 2) found
     ∧ found `sublist_of` all_symbols
     ∧ (∀ s, s ∈ found ↔ s ∈ all_symbols ∧ matches_in_upper_case "inc" s)
     ∧ (is_ascii "inc" = true →
        ∀ s, s ∈ found ↔ s ∈ all_symbols ∧ matches_ignoring_case "inc" s))
  ∧ search "inc" 2 = map search_entry (search_symbols "inc" 2)
  ∧ Z.of_nat (length (search "inc" 2)) ≤ 2
  ∧ ("inc" = "" → search_symbols "inc" 2 = take (Z.to_nat 2) all_symbols)
  ∧ map symbol (search_symbols "AAPL" 10) = ["AAPL"]
  ∧ search_symbols "" 3 = take 3 all_symbols
  ∧ search "ZZZZ" 10 = []
  ∧ map symbol (search_symbols "aapl" 10) = ["AAPL"]
  ∧ map symbol (search_symbols "oog" 10) = ["GOOGL"]
  ∧ map symbol (search_symbols "soft" 10) = ["MSFT"]
  ∧ map symbol (search_symbols "inc" 10) = ["AAPL"; "GOOGL"; "AMZN"; "TSLA"; "META"]
  ∧ map symbol (search_symbols "inc" 2) = ["AAPL"; "GOOGL"].
Proof.
  apply (search_in_catalog_order "inc" 2). lia.
Defined.

(** The entry of the sample request in the warm cache. *)
Lemma cache_holds_success_only_sample :
  (∃ bars, sample_body = ok_response bars)
  ∧ status sample_body = Some "ok"
  ∧ sample_body ≠ no_data_response
  ∧ (∀ msg, sample_body ≠ error_response msg)
  ∧ (∀ key' now cached,
       cache_lookup warm key' now = Some cached → status cached = Some "ok").
Proof.
  apply (cache_holds_success_only warm (cache_key "MSFT" "60" 50 300) sample_body).
  - apply reachable_warm.
  - vm_compute. reflexivity.
Defined.

(** ** Where the code departs from the description *)

(** An exception without a message gives an empty errmsg. *)
Lemma error_message_can_be_empty :
  fetch_exception silent_failure_env "MSFT" "60" 50 300 = Some (Raise "Exception" "")
  ∧ trace_of (handle_history sample_params silent_failure_env initial)
    = [UpstreamCall "MSFT" "60d" "1h";
       Send 200 (JDict [("s", JStr "error"); ("errmsg", JStr "")])]
  ∧ ¬ ∃ msg, msg ≠ ""
        ∧ Send 200 (JDict [("s", JStr "error"); ("errmsg", JStr msg)])
          ∈ trace_of (handle_history sample_params silent_failure_env initial).
Proof.
  split_and!; [reflexivity|by vm_compute|].
  intros (msg & Hmsg & Hin). vm_compute in Hin.
  apply elem_of_cons in Hin as [Hin|Hin]; [discriminate|].
  apply list_elem_of_singleton in Hin. injection Hin as Hempty. by symmetry in Hempty.
Qed.

(** Two identical requests less than 300 seconds apart need not get the
    same answer. A request answered no_data at time 900 is fetched again at
    time 1000: the provider is asked twice and the two bodies differ. A
    request served at time 1250 from an entry stored at time 1000 is
    fetched again at time 1350, after the entry has expired, with another
    answer. And a success fetched in January 2038 is stored with an expiry
    that the float sum rounds below the exact sum: a request at that
    instant, less than 300 seconds after the first, is fetched again. *)
Lemma repeated_request_can_differ :
  ((time_now sample_env < time_now no_data_env + 300)%Q
   ∧ sent (trace_of (handle_history sample_params no_data_env initial))
     = [no_data_response]
   ∧ sent (trace_of (handle_history sample_params sample_env
                       (state_of (handle_history sample_params no_data_env initial))))
     = [sample_body]
   ∧ length (upstream_calls
       (trace_of (handle_history sample_params no_data_env initial)
        ++ trace_of (handle_history sample_params sample_env
                       (state_of (handle_history sample_params no_data_env initial)))))
     = 2%nat)
  ∧ ((time_now third_env < time_now second_env + 300)%Q
     ∧ trace_of (handle_history sample_params second_env warm) = [Send 200 sample_body]
     ∧ state_of (handle_history sample_params second_env warm) = warm
     ∧ sent (trace_of (handle_history sample_params third_env warm))
       = [no_data_response])
  ∧ ((time_now late_env <= time_now late_env_300)%Q
     ∧ (time_now late_env_300 < time_now late_env + 300)%Q
     ∧ sent (trace_of (handle_history sample_params late_env initial)) = [sample_body]
     ∧ cache_expiry (state_of (handle_history sample_params late_env initial))
         !! cache_key "MSFT" "60" 50 300
       = Some (2251799973802803 # 1048576)
     ∧ sent (trace_of (handle_history sample_params late_env_300
                         (state_of (handle_history sample_params late_env initial))))
       = [no_data_response]
     ∧ length (upstream_calls
         (trace_of (handle_history sample_params late_env initial)
          ++ trace_of (handle_history sample_params late_env_300
                         (state_of (handle_history sample_params late_env initial)))))
       = 2%nat).
Proof.
  split_and!; by vm_compute.
Qed.


(** A negative limit drops entries from the end: it is not a bound on the
    number of results. *)
Lemma negative_limit_is_no_bound :
  map symbol (search_symbols "" (-1)) = ["AAPL"; "MSFT"; "GOOGL"; "AMZN"; "TSLA"; "NVDA"]
  ∧ ¬ Z.of_nat (length (search "" (-1))) ≤ -1.
Proof.
  split; [reflexivity|]. vm_compute. by intros H; apply H.
Qed.

(** A query beyond ASCII goes through the upper case of Unicode: the long
    s, U+017F, becomes S and finds the entries with an S in their symbol
    code or full name. *)
Example long_s_search :
  upper "ſ" = "S"
  ∧ map symbol (search_symbols "ſ" 10) = ["MSFT"; "TSLA"; "META"].
Proof. split; reflexivity. Qed.

(** ** The further properties at work on the sample inputs *)

Lemma unknown_path_not_found_sample :
  do_GET unknown_request sample_env warm
  = (inr (), warm, [SendError 404 "Unknown endpoint: /quotes"]).
Proof.
  apply (unknown_path_not_found unknown_request sample_env warm).
  vm_compute. intros Hin.
  repeat (apply elem_of_cons in Hin as [Hin|Hin]; [discriminate|]).
  by apply elem_of_nil in Hin.
Defined.



Lemma history_request_refused_sample :
  do_GET {| path := "/history"; query_params := bad_to_params |} sample_env warm
  = (inr (), warm,
     [Send 200 (JDict [("s", JStr "error");
                       ("errmsg",
                        JStr (str (Raise "ValueError"
                                "invalid literal for int() with base 10: '10x'")))])]).
Proof.
  apply (history_request_refused bad_to_params sample_env warm).
  left. vm_compute. reflexivity.
Defined.


Lemma cache_key_injective_sample :
  "MSFT" = "MSFT" ∧ "60" = "60" ∧ 50 = 50 ∧ 300 = 300.
Proof.
  apply (cache_key_injective "MSFT" "60" 50 300 "MSFT" "60" 50 300); reflexivity.
Defined.

Lemma provider_asked_on_miss_only_sample :
  upstream_calls (trace_of (handle_history sample_params sample_env initial))
  = match rbind (fromtimestamp 50) (λ _, fromtimestamp 300),
          cache_lookup initial (cache_key "MSFT" "60" 50 300) (time_now sample_env) with
    | inr _, None => [("MSFT", (select_window "60").1, (select_window "60").2)]
    | _, _ => []
    end.
Proof.
  apply (provider_asked_on_miss_only initial sample_params sample_env "MSFT" "60" 50 300).
  vm_compute. reflexivity.
Defined.

Lemma expired_entry_fetched_again_sample :
  upstream_calls
    (trace_of (handle_history sample_params expired_env
                 (state_of (handle_history sample_params sample_env initial))))
  = [("MSFT", (select_window "60").1, (select_window "60").2)].
Proof.
  apply (expired_entry_fetched_again initial sample_params sample_env expired_env
           "MSFT" "60" 50 300 sample_body).
  - vm_compute. reflexivity.
  - vm_compute. reflexivity.
  - vm_compute. discriminate.
  - vm_compute. reflexivity.
  - reflexivity.
  - vm_compute. discriminate.
Defined.

Lemma history_cache_writes_sample :
  (state_of (handle_history sample_params sample_env initial) = initial
   ∨ ∃ bars,
       sent (trace_of (handle_history sample_params sample_env initial)) = [ok_response bars]
       ∧ upstream_calls (trace_of (handle_history sample_params sample_env initial)) ≠ []
       ∧ data_cache (state_of (handle_history sample_params sample_env initial))
         = <[cache_key "MSFT" "60" 50 300 := ok_response bars]> (data_cache initial)
       ∧ cache_expiry (state_of (handle_history sample_params sample_env initial))
         = <[cache_key "MSFT" "60" 50 300 := 1300%Q]> (cache_expiry initial)
       ∧ (time_now sample_env + 300 - ulp (time_now sample_env + 300) * (1 # 2)
          <= float_add (time_now sample_env) 300
          <= time_now sample_env + 300 + ulp (time_now sample_env + 300) * (1 # 2))%Q)
  ∧ (upstream_calls (trace_of (handle_history sample_params sample_env initial)) = [] →
     state_of (handle_history sample_params sample_env initial) = initial)
  ∧ (∀ key, key ≠ cache_key "MSFT" "60" 50 300 →
       data_cache (state_of (handle_history sample_params sample_env initial)) !! key
       = data_cache initial !! key
       ∧ cache_expiry (state_of (handle_history sample_params sample_env initial)) !! key
         = cache_expiry initial !! key).
Proof.
  apply (history_cache_writes initial sample_params sample_env "MSFT" "60" 50 300).
  vm_compute. reflexivity.
Defined.

Lemma cache_maps_in_step_sample :
  is_Some (data_cache warm !! cache_key "MSFT" "60" 50 300)
  ↔ is_Some (cache_expiry warm !! cache_key "MSFT" "60" 50 300).
Proof.
  apply (cache_maps_in_step warm (cache_key "MSFT" "60" 50 300)), reachable_warm.
Defined.

Lemma history_answer_shapes_sample :
  ∃ body,
    sent (trace_of (handle_history sample_params later_env warm)) = [body]
    ∧ (∀ code message,
         SendError code message ∉ trace_of (handle_history sample_params later_env warm))
    ∧ ((∃ bars, body = ok_response bars)
       ∨ body = no_data_response
       ∨ ∃ errmsg, body = error_response errmsg).
Proof.
  apply (history_answer_shapes warm sample_params later_env), reachable_warm.
Defined.

Lemma colliding_key_served_sample :
  cache_expiry (state_of (handle_history brk_b_params sample_env initial))
    !! cache_key "BRK" "B_60" 50 300
  = Some 1300%Q
  ∧ handle_history brk_params later_env
      (state_of (handle_history brk_b_params sample_env initial))
    = (inr (), state_of (handle_history brk_b_params sample_env initial),
       [Send 200 sample_body]).
Proof.
  apply (colliding_key_served initial brk_b_params brk_params sample_env later_env
           "BRK" "B" "60" 50 300 sample_body).
  - vm_compute. reflexivity.
  - vm_compute. reflexivity.
  - vm_compute. discriminate.
  - vm_compute. reflexivity.
  - reflexivity.
  - vm_compute. reflexivity.
Defined.

Lemma default_to_changes_key_sample :
  1000 = Qtruncate (time_default sample_env)
  ∧ 1100 = Qtruncate (time_default later_env)
  ∧ cache_key "MSFT" "60" 50 1000 ≠ cache_key "MSFT" "60" 50 1100.
Proof.
  apply (default_to_changes_key no_to_params sample_env later_env
           "MSFT" "60" 50 1000 "MSFT" "60" 50 1100).
  - vm_compute. reflexivity.
  - vm_compute. reflexivity.
  - vm_compute. reflexivity.
  - vm_compute. discriminate.
Defined.

Lemma rows_out_of_range_not_read_sample :
  convert_rows sample_frame 50 300 (rows sample_frame) []
  = convert_rows trimmed_frame 50 300 (rows trimmed_frame) [].
Proof.
  apply (rows_out_of_range_not_read sample_frame trimmed_frame 50 300); reflexivity.
Defined.

Lemma conversion_succeeds_iff_sample :
  ¬ ∃ bars, convert_rows broken_frame 50 300 (rows broken_frame) [] = inr bars.
Proof.
  intros Hconv%(proj1 (conversion_succeeds_iff broken_frame 50 300)).
  vm_compute in Hconv. inversion Hconv as [|? ? (_ & _ & _ & Hclose & _) _]; subst.
  repeat (apply elem_of_cons in Hclose as [Hclose|Hclose]; [discriminate|]).
  by apply elem_of_nil in Hclose.
Defined.


Lemma ordered_observations_keep_order_sample :
  times ordered_body
  = map (λ row, second_timestamp row * 1000) (kept 50 300 (rows ordered_frame))
  ∧ ∃ converted,
      convert_rows ordered_frame 50 300 (rows ordered_frame) [] = inr converted
      ∧ ordered_body = ok_response converted.
Proof.
  apply (ordered_observations_keep_order initial sample_params ordered_env
           "MSFT" "60" 50 300 "MSFT" "60d" "1h").
  - vm_compute. reflexivity.
  - vm_compute. left.
  - reflexivity.
  - vm_compute. left.
  - reflexivity.
  - vm_compute. repeat constructor; discriminate.
Defined.

Lemma nothing_in_range_is_empty_success_sample :
  trace_of (handle_history reversed_params sample_env initial)
    = [UpstreamCall "MSFT" "60d" "1h";
       Send 200 (JDict [("s", JStr "ok"); ("t", JList []); ("o", JList []);
                        ("h", JList []); ("l", JList []); ("c", JList []);
                        ("v", JList [])])]
  ∧ state_of (handle_history reversed_params sample_env initial)
    = cache_store initial (cache_key "MSFT" "60" 400 300) (ok_response [])
        (time_now sample_env).
Proof.
  apply (nothing_in_range_is_empty_success initial reversed_params sample_env
           "MSFT" "60" 400 300 "MSFT" "60d" "1h" sample_frame).
  - vm_compute. reflexivity.
  - vm_compute. left.
  - reflexivity.
  - reflexivity.
  - intros row _. lia.
Defined.

Lemma search_complete_sample :
  (∀ s, s ∈ search_symbols "inc" 7
        ↔ s ∈ all_symbols
          ∧ (occurs_in (upper "inc") (symbol s)
             ∨ occurs_in (upper "inc") (upper (full_name s))))
  ∧ (is_ascii "inc" = true →
     ∀ s, s ∈ search_symbols "inc" 7
          ↔ s ∈ all_symbols
            ∧ ((∃ part, equal_ignoring_case part "inc" ∧ occurs_in part (symbol s))
               ∨ (∃ part, equal_ignoring_case part "inc"
                          ∧ occurs_in part (full_name s)))).
Proof.
  apply (search_complete "inc" 7). vm_compute. discriminate.
Defined.

(** Two spellings of one query. *)
Lemma search_ignores_case_sample :
  search "aPpLe" 10 = search "Apple" 10
  ∧ search (upper "aPpLe") 10 = search "aPpLe" 10.
Proof.
  apply (search_ignores_case "aPpLe" "Apple" 10).
  - reflexivity.
  - apply ascii_upper_equal. reflexivity.
Defined.

Lemma search_limit_prefix_sample :
  search "inc" 2 = take (Z.to_nat 2) (search "inc" 4).
Proof.
  apply (search_limit_prefix "inc" 2 4). lia.
Defined.

Lemma search_results_listed_sample :
  ∃ listing,
    trace_of (handle_symbol_info ∅ warm) = [Send 200 (JDict [("symbols", JList listing)])]
    ∧ info_entry {| symbol := "TSLA"; full_name := "Tesla Inc.";
                    description := "Tesla Inc."; exchange := "NASDAQ";
                    type := "stock" |} ∈ listing.
Proof.
  apply (search_results_listed "tesla" 10). vm_compute. left.
Defined.

Lemma other_routes_leave_cache_sample :
  state_of (do_GET search_request sample_env warm) = warm
  ∧ upstream_calls (trace_of (do_GET search_request sample_env warm)) = [].
Proof.
  apply (other_routes_leave_cache search_request sample_env warm). discriminate.
Defined.

(** The entry of the sample request is still there after it has expired
    and three more requests have been served. *)
Lemma cache_entries_never_removed_sample :
  is_Some (data_cache
             (serve [(unknown_request, later_env);
                     ({| path := "/history"; query_params := reversed_params |}, later_env);
                     (sample_request, expired_env)] warm)
           !! cache_key "MSFT" "60" 50 300)
  ∧ (size (data_cache warm)
     ≤ size (data_cache
               (serve [(unknown_request, later_env);
                       ({| path := "/history"; query_params := reversed_params |}, later_env);
                       (sample_request, expired_env)] warm))
     ≤ size (data_cache warm) + 3)%nat.
Proof.
  apply (cache_entries_never_removed
           [(unknown_request, later_env);
            ({| path := "/history"; query_params := reversed_params |}, later_env);
            (sample_request, expired_env)] warm (cache_key "MSFT" "60" 50 300)).
  vm_compute. eauto.
Defined.
